(** * Auto-grading engine of the CBT application

    A shallow embedding of the scoring functions of
    [src/services/supabase.ts] ([calculatePoints], [gradeMultipleChoice],
    [gradeMultipleSelect], [gradeMatching], [gradeShortAnswer] and the
    mapping step of [gradeSession]) together with the properties the
    specification states about them.

    Modelling conventions.
    - The TypeScript code takes [any]; the rows it reads are those of the
      tables [student_answers], [questions], [question_options],
      [matching_pairs] and [short_answer_keys].  A property that may be
      [null] or [undefined] is an [option]; both JavaScript values are
      falsy and both make a property access throw, so one [None] stands
      for the two.
    - A JavaScript number is an exact rational ([Q]); the rounding of the
      IEEE-754 quotient and product is not modelled.  Results are compared
      with [Qeq].
    - A JavaScript string is a [string] whose characters are read as the
      code points U+0000 to U+00FF.
    - A [TypeError] raised by a property access on [undefined] is the
      [Throw] completion. *)

From Stdlib Require Import ZArith QArith Qminmax Lqa Lia Ascii String List.
From stdpp Require Import base option list gmap strings.

Local Open Scope string_scope.

(** ** JavaScript string primitives used by the scorer *)

Module JsString.

(** [WhiteSpace] and [LineTerminator] code points below U+0100:
    TAB, LF, VT, FF, CR, SP and NBSP. *)
Definition isWhiteSpace (c : ascii) : bool :=
  let n := N_of_ascii c in
  (((9 <=? n) && (n <=? 13)) || (n =? 32) || (n =? 160))%N.

(** Lower-case mapping of one code point below U+0100: A-Z, and
    U+00C0-U+00DE except the multiplication sign U+00D7. *)
Definition lowerChar (c : ascii) : ascii :=
  let n := N_of_ascii c in
  if (((65 <=? n) && (n <=? 90))
      || ((192 <=? n) && (n <=? 222) && negb (n =? 215)))%N
  then ascii_of_N (n + 32)
  else c.

(** [String.prototype.toLowerCase] *)
Fixpoint toLowerCase (s : string) : string :=
  match s with
  | EmptyString => EmptyString
  | String c r => String (lowerChar c) (toLowerCase r)
  end.

Fixpoint trimStart (s : string) : string :=
  match s with
  | EmptyString => EmptyString
  | String c r => if isWhiteSpace c then trimStart r else s
  end.

Fixpoint trimEnd (s : string) : string :=
  match s with
  | EmptyString => EmptyString
  | String c r =>
      match trimEnd r with
      | EmptyString => if isWhiteSpace c then EmptyString else String c EmptyString
      | r' => String c r'
      end
  end.

(** [String.prototype.trim] *)
Definition trim (s : string) : string := trimEnd (trimStart s).

End JsString.

(** ** Completions: a value, or a thrown exception *)

Inductive JsError : Type :=
| TypeError.

Inductive completion (A : Type) : Type :=
| Normal (a : A)
| Throw (e : JsError).

Arguments Normal {A} a.
Arguments Throw {A} e.

Definition bindC {A B} (c : completion A) (k : A -> completion B) : completion B :=
  match c with
  | Normal a => k a
  | Throw e => Throw e
  end.

(** [Array.prototype.map] with a callback that may throw: the first
    exception aborts the whole map. *)
Fixpoint mapC {A B} (f : A -> completion B) (l : list A) : completion (list B) :=
  match l with
  | [] => Normal []
  | x :: r =>
      bindC (f x) (fun y => bindC (mapC f r) (fun ys => Normal (y :: ys)))
  end.

(** ** Data model: the rows read by the scorer *)

(** Row of [question_options].  [id] is the primary key; [is_correct] is
    [BOOLEAN DEFAULT FALSE] and nullable. *)
Record QuestionOption : Type := {
  id : string;
  is_correct : option bool
}.

(** Row of [matching_pairs]; both columns are [TEXT NOT NULL]. *)
Record MatchingPair : Type := {
  left_item : string;
  right_item : string
}.

(** Row of [short_answer_keys].  The column [correct_answer] is
    [TEXT NOT NULL], but the scorer takes [any]: [None] is a key object
    without a text. *)
Record ShortAnswerKey : Type := {
  correct_answer : option string;
  is_case_sensitive : option bool
}.

(** Row of [questions] with its embedded relations.  [points] is
    [INTEGER DEFAULT 1], nullable and unconstrained. *)
Record Question : Type := {
  question_type : string;
  points : option Z;
  options : option (list QuestionOption);
  matching_pairs : option (list MatchingPair);
  short_answer_keys : option (list ShortAnswerKey)
}.

(** Row of [student_answers] joined with its question.
    [selected_options] is a [UUID[]] array: an ordered list that may
    repeat an id.  [matching_answers] is the JSON object
    [Record<string, string>] built by the matching component; a lookup of
    a key that is absent is [undefined] (the properties inherited from
    [Object.prototype] are not strings, so they never compare equal to a
    [right_item] either). *)
Record Answer : Type := {
  answer_text : option string;
  selected_options : option (list string);
  matching_answers : option (gmap string string);
  question : option Question
}.

(** ** Truthiness *)

(** [!!b] for a nullable boolean. *)
Definition truthy (b : option bool) : bool :=
  match b with
  | Some true => true
  | _ => false
  end.

(** [question.points || 1]: the left operand when it is truthy, that is a
    number other than 0; [1] when it is [0], [null] or [undefined]. *)
Definition points_or_1 (question : Question) : Z :=
  match points question with
  | Some p => if (p =? 0)%Z then 1%Z else p
  | None => 1%Z
  end.

(** ** The scorers *)

(** [answer.selected_options?.[0]] *)
Definition selectedOptionId (answer : Answer) : option string :=
  selected_options answer ≫= head.

(** [question.options?.find(opt => opt.is_correct)] *)
Definition correctOption (question : Question) : option QuestionOption :=
  options question ≫= List.find (fun opt => truthy (is_correct opt)).

Definition gradeMultipleChoice (answer : Answer) (question : Question) : Q :=
  match correctOption question with
  | Some co =>
      if decide (selectedOptionId answer = Some (id co))
      then inject_Z (points_or_1 question)
      else 0%Q
  | None => 0%Q
  end.

(** [question.options?.filter(opt => opt.is_correct) || []] *)
Definition correctOptions (question : Question) : list QuestionOption :=
  default [] (filter (fun opt => truthy (is_correct opt)) <$> options question).

Definition correctIds (question : Question) : list string :=
  map id (correctOptions question).

(** [answer.selected_options || []] *)
Definition selectedIds (answer : Answer) : list string :=
  default [] (selected_options answer).

(** [selectedIds.filter(id => correctIds.includes(id)).length] *)
Definition correctSelected (answer : Answer) (question : Question) : Z :=
  Z.of_nat (length (filter (fun i => i ∈ correctIds question) (selectedIds answer))).

Definition incorrectSelected (answer : Answer) (question : Question) : Z :=
  (Z.of_nat (length (selectedIds answer)) - correctSelected answer question)%Z.

Definition gradeMultipleSelect (answer : Answer) (question : Question) : Q :=
  if (length (correctOptions question) =? 0)%nat then 0%Q
  else
    let score :=
      Qmax 0 (inject_Z (correctSelected answer question
                        - incorrectSelected answer question)
              / inject_Z (Z.of_nat (length (correctIds question)))) in
    (score * inject_Z (points_or_1 question))%Q.

(** [answer.matching_answers || {}] *)
Definition studentMatches (answer : Answer) : gmap string string :=
  default ∅ (matching_answers answer).

(** [question.matching_pairs || []] *)
Definition correctPairs (question : Question) : list MatchingPair :=
  default [] (matching_pairs question).

(** The body of the [forEach] callback: one step of the counter. *)
Definition countPair (m : gmap string string) (correctCount : Z) (pair : MatchingPair) : Z :=
  if decide (m !! left_item pair = Some (right_item pair))
  then (correctCount + 1)%Z
  else correctCount.

Definition correctCount (answer : Answer) (question : Question) : Z :=
  fold_left (countPair (studentMatches answer)) (correctPairs question) 0%Z.

Definition gradeMatching (answer : Answer) (question : Question) : Q :=
  if (length (correctPairs question) =? 0)%nat then 0%Q
  else
    (inject_Z (correctCount answer question)
     / inject_Z (Z.of_nat (length (correctPairs question)))
     * inject_Z (points_or_1 question))%Q.

(** [(answer.answer_text || '').trim().toLowerCase()] *)
Definition studentAnswer (answer : Answer) : string :=
  JsString.toLowerCase (JsString.trim (default "" (answer_text answer))).

(** The [for ... of] loop over the answer keys.  [correct.correct_answer]
    is dereferenced before the flag is read: a key without a text throws. *)
Fixpoint shortAnswerLoop (student : string) (question : Question)
    (correctAnswers : list ShortAnswerKey) : completion Q :=
  match correctAnswers with
  | [] => Normal 0%Q
  | correct :: rest =>
      match correct_answer correct with
      | None => Throw TypeError
      | Some raw =>
          let correctText := JsString.toLowerCase raw in
          if truthy (is_case_sensitive correct) then
            if decide (student = correctText)
            then Normal (inject_Z (points_or_1 question))
            else shortAnswerLoop student question rest
          else
            if decide (student = JsString.toLowerCase correctText)
            then Normal (inject_Z (points_or_1 question))
            else shortAnswerLoop student question rest
      end
  end.

(** [question.short_answer_keys || []] *)
Definition correctAnswers (question : Question) : list ShortAnswerKey :=
  default [] (short_answer_keys question).

Definition gradeShortAnswer (answer : Answer) (question : Question) : completion Q :=
  shortAnswerLoop (studentAnswer answer) question (correctAnswers question).

(** The dispatcher.  The [default] arm of the [switch] takes ["essay"] and
    every other type name. *)
Definition calculatePoints (answer : Answer) : completion Q :=
  match question answer with
  | None => Normal 0%Q
  | Some q =>
      if decide (question_type q = "multiple_choice") then
        Normal (gradeMultipleChoice answer q)
      else if decide (question_type q = "multiple_select") then
        Normal (gradeMultipleSelect answer q)
      else if decide (question_type q = "matching") then
        Normal (gradeMatching answer q)
      else if decide (question_type q = "short_answer") then
        gradeShortAnswer answer q
      else Normal 0%Q
  end.

(** ** The batch step of [gradeSession] *)

(** The object [{...answer, is_auto_graded: true, points_awarded: ...}]:
    the answer row with the two properties the grading step sets. *)
Record GradedAnswer : Type := {
  graded_row : Answer;
  is_auto_graded : bool;
  points_awarded : Q
}.

Definition gradeAnswer (answer : Answer) : completion GradedAnswer :=
  bindC (calculatePoints answer) (fun p =>
    Normal {| graded_row := answer; is_auto_graded := true; points_awarded := p |}).

(** Result of [gradeSession]: [{ error }] or [{ data, error: null }]. *)
Inductive SessionResult : Type :=
| SessionError (error : string)
| SessionData (data : list GradedAnswer).

(** [gradeSession] after the query has answered with [answers] and
    [error]. *)
Definition gradeSession (answers : list Answer) (error : option string)
    : completion SessionResult :=
  match error with
  | Some e => Normal (SessionError e)
  | None => bindC (mapC gradeAnswer answers) (fun g => Normal (SessionData g))
  end.

(** ** Auxiliary notions used by the statements *)

(** The question [q] with its [points] column replaced. *)
Definition with_points (p : option Z) (q : Question) : Question :=
  {| question_type := question_type q;
     points := p;
     options := options q;
     matching_pairs := matching_pairs q;
     short_answer_keys := short_answer_keys q |}.

(** A completion that is a number equal to [v]. *)
Definition returns (c : completion Q) (v : Q) : Prop :=
  match c with
  | Normal s => (s == v)%Q
  | Throw _ => False
  end.

(** [co] is the first option of [opts] whose flag is truthy. *)
Definition first_correct (opts : list QuestionOption) (co : QuestionOption) : Prop :=
  exists pre post,
    opts = (pre ++ co :: post)%list
    /\ Forall (fun o => truthy (is_correct o) = false) pre
    /\ truthy (is_correct co) = true.

(** The first selected id is the id of the first correct option. *)
Definition first_selected_is_first_correct (a : Answer) (q : Question) : Prop :=
  exists opts co rest,
    options q = Some opts
    /\ first_correct opts co
    /\ selected_options a = Some (id co :: rest).

(** The partial-credit fraction over sets of ids, in the specification's
    words: [max(0, (|C ∩ S| - (|S| - |C ∩ S|)) / n)] with [n = |C|]. *)
Definition partialCredit (C S : gset string) : Q :=
  let both := Z.of_nat (size (C ∩ S)) in
  Qmax 0 (inject_Z (both - (Z.of_nat (size S) - both)) / inject_Z (Z.of_nat (size C))).

(** The number of pairs [(left, right)] that the mapping [m] sends
    [left] to [right], in the specification's words. *)
Definition satisfiedPairs (m : gmap string string) (pairs : list MatchingPair) : Z :=
  Z.of_nat (length (filter (fun pair => m !! left_item pair = Some (right_item pair)) pairs)).

(** Every key of the list carries a text. *)
Definition keys_have_text (keys : list ShortAnswerKey) : Prop :=
  Forall (fun k => is_Some (correct_answer k)) keys.

(** The short-answer loop in the specification's words: a key with
    [is_case_sensitive] is compared by its raw text, any other key
    lower-cased. *)
Fixpoint shortAnswerLoop_spec (student : string) (question : Question)
    (correctAnswers : list ShortAnswerKey) : completion Q :=
  match correctAnswers with
  | [] => Normal 0%Q
  | correct :: rest =>
      match correct_answer correct with
      | None => Throw TypeError
      | Some raw =>
          if decide (student =
                     if truthy (is_case_sensitive correct) then raw
                     else JsString.toLowerCase raw)
          then Normal (inject_Z (points_or_1 question))
          else shortAnswerLoop_spec student question rest
      end
  end.

Definition gradeShortAnswer_spec (answer : Answer) (question : Question) : completion Q :=
  shortAnswerLoop_spec (studentAnswer answer) question (correctAnswers question).

(** The key [k] with its [is_case_sensitive] flag negated. *)
Definition flip_flag (k : ShortAnswerKey) : ShortAnswerKey :=
  {| correct_answer := correct_answer k;
     is_case_sensitive := Some (negb (truthy (is_case_sensitive k))) |}.

(** The question [q] with the flag of its [i]-th answer key negated. *)
Definition flip_case_flag (i : nat) (q : Question) : Question :=
  {| question_type := question_type q;
     points := points q;
     options := options q;
     matching_pairs := matching_pairs q;
     short_answer_keys := alter flip_flag i <$> short_answer_keys q |}.

(** ** Fixtures *)

Module Fixtures.

Definition opt (i : string) (c : bool) : QuestionOption :=
  {| id := i; is_correct := Some c |}.

Definition choice (p : option Z) : Question :=
  {| question_type := "multiple_choice"; points := p;
     options := Some [opt "A" true; opt "B" false];
     matching_pairs := None; short_answer_keys := None |}.

Definition select (p : option Z) : Question :=
  {| question_type := "multiple_select"; points := p;
     options := Some [opt "A" true; opt "B" true; opt "C" false; opt "D" false];
     matching_pairs := None; short_answer_keys := None |}.

Definition noCorrectSelect : Question :=
  {| question_type := "multiple_select"; points := Some 4%Z;
     options := Some [opt "C" false; opt "D" false];
     matching_pairs := None; short_answer_keys := None |}.

Definition matching (p : option Z) : Question :=
  {| question_type := "matching"; points := p;
     options := None;
     matching_pairs := Some [ {| left_item := "cat"; right_item := "kucing" |};
                              {| left_item := "dog"; right_item := "anjing" |} ];
     short_answer_keys := None |}.

Definition noPairs : Question :=
  {| question_type := "matching"; points := Some 10%Z;
     options := None; matching_pairs := Some []; short_answer_keys := None |}.

Definition shortAnswer (p : option Z) (keys : list ShortAnswerKey) : Question :=
  {| question_type := "short_answer"; points := p;
     options := None; matching_pairs := None; short_answer_keys := Some keys |}.

Definition paris (sensitive : bool) : ShortAnswerKey :=
  {| correct_answer := Some "Paris"; is_case_sensitive := Some sensitive |}.

Definition noText : ShortAnswerKey :=
  {| correct_answer := None; is_case_sensitive := Some false |}.

Definition essay : Question :=
  {| question_type := "essay"; points := Some 5%Z;
     options := None; matching_pairs := None; short_answer_keys := None |}.

Definition selecting (ids : list string) (q : Question) : Answer :=
  {| answer_text := None; selected_options := Some ids;
     matching_answers := None; question := Some q |}.

Definition mapping (m : gmap string string) (q : Question) : Answer :=
  {| answer_text := None; selected_options := None;
     matching_answers := Some m; question := Some q |}.

Definition writing (text : string) (q : Question) : Answer :=
  {| answer_text := Some text; selected_options := None;
     matching_answers := None; question := Some q |}.

Definition orphan : Answer :=
  {| answer_text := Some "Paris"; selected_options := None;
     matching_answers := None; question := None |}.

End Fixtures.

(** ** Further notions for the scorers *)

(** A string made of [WhiteSpace] and [LineTerminator] code points only. *)
Fixpoint allWhiteSpace (s : string) : bool :=
  match s with
  | EmptyString => true
  | String c r => JsString.isWhiteSpace c && allWhiteSpace r
  end.

(** The key [k] carries a text that, lower-cased, is [student]. *)
Definition key_matches (student : string) (k : ShortAnswerKey) : Prop :=
  exists raw, correct_answer k = Some raw /\ student = JsString.toLowerCase raw.

(** The question row as the query of [gradeSession] embeds it:
    the select string asks for every column of [questions] and for none
    of the relations [options], [matching_pairs], [short_answer_keys]. *)
Definition without_relations (q : Question) : Prop :=
  options q = None /\ matching_pairs q = None /\ short_answer_keys q = None.

(** ** [saveAnswer]: the row handed to [upsert] *)

Module SaveAnswer.
Section Row.
Context {V : Type} (text : string -> V).

(** [{ session_id: sessionId, question_id: questionId, ...answer,
       updated_at: new Date().toISOString() }]: a later property of an
    object literal replaces an earlier one of the same name.  [now] is the
    ISO string of the clock. *)
Definition row (sessionId questionId : string) (answer : gmap string V) (now : string)
    : gmap string V :=
  <["updated_at" := text now]>
    (answer ∪ <["question_id" := text questionId]> {["session_id" := text sessionId]}).

End Row.
End SaveAnswer.

(** ** The matching component: connections between items *)

Module MatchingComponent.

Inductive ItemType : Type :=
| Left
| Right.

Record MatchingItem : Type := {
  id : string;
  content : string;
  type : ItemType
}.

(** The state of the component that the handlers below read and set.
    [hoveredItem] and [connectionPoints] hold mouse and layout data and
    are left out. *)
Record State : Type := {
  leftSide : list MatchingItem;
  rightSide : list MatchingItem;
  connections : gmap string string;
  activeId : option string
}.

(** [event.active.id] and [event.over?.id] of a [DragEndEvent]. *)
Record DragEndEvent : Type := {
  active : string;
  over : option string
}.

(** What a handler leaves behind: the next state and, when it called
    [onMatch], the argument of the call. *)
Record Outcome : Type := {
  next : State;
  matched : option (gmap string string)
}.

(** [items.findIndex(item => item.id === target)] *)
Fixpoint findIndex (items : list MatchingItem) (target : string) : Z :=
  match items with
  | [] => (-1)%Z
  | item :: rest =>
      if decide (id item = target) then 0%Z
      else
        let i := findIndex rest target in
        if (i <? 0)%Z then (-1)%Z else (i + 1)%Z
  end.

(** A string is truthy when it is not empty. *)
Definition truthyString (v : option string) : bool :=
  match v with
  | Some (String _ _) => true
  | _ => false
  end.

(** The connection arm of [handleDragEnd]: the copy of [connections]
    loses every key whose value is [activeId], then the key [activeId]
    itself, and gains the two entries of the new pair. *)
Definition connect (activeId overId : string) (connections : gmap string string)
    : gmap string string :=
  let newConnections := filter (fun kv => kv.2 <> activeId) connections in
  let newConnections :=
    if truthyString (newConnections !! activeId)
    then delete activeId newConnections
    else newConnections in
  <[overId := activeId]> (<[activeId := overId]> newConnections).

Section Handlers.
(** [arrayMove] of [@dnd-kit/sortable], which the component imports. *)
Variable arrayMove : list MatchingItem -> Z -> Z -> list MatchingItem.

Definition handleDragEnd (readOnly : bool) (event : DragEndEvent) (st : State) : Outcome :=
  if readOnly then {| next := st; matched := None |}
  else
    match over event with
    | None =>
        {| next := {| leftSide := leftSide st; rightSide := rightSide st;
                      connections := connections st; activeId := None |};
           matched := None |}
    | Some overId =>
        let activeId := active event in
        if String.prefix "left" activeId && String.prefix "left" overId then
          let oldIndex := findIndex (leftSide st) activeId in
          let newIndex := findIndex (leftSide st) overId in
          {| next := {| leftSide := arrayMove (leftSide st) oldIndex newIndex;
                        rightSide := rightSide st;
                        connections := connections st; activeId := None |};
             matched := None |}
        else if String.prefix "right" activeId && String.prefix "right" overId then
          let oldIndex := findIndex (rightSide st) activeId in
          let newIndex := findIndex (rightSide st) overId in
          {| next := {| leftSide := leftSide st;
                        rightSide := arrayMove (rightSide st) oldIndex newIndex;
                        connections := connections st; activeId := None |};
             matched := None |}
        else if (String.prefix "left" activeId && String.prefix "right" overId)
                || (String.prefix "right" activeId && String.prefix "left" overId) then
          let newConnections := connect activeId overId (connections st) in
          {| next := {| leftSide := leftSide st; rightSide := rightSide st;
                        connections := newConnections; activeId := None |};
             matched := Some newConnections |}
        else
          {| next := {| leftSide := leftSide st; rightSide := rightSide st;
                        connections := connections st; activeId := None |};
             matched := None |}
    end.

End Handlers.

Definition handleRemoveConnection (readOnly : bool) (itemId : string) (st : State) : Outcome :=
  if readOnly then {| next := st; matched := None |}
  else
    match connections st !! itemId with
    | Some (String c r) =>
        let connectedId := String c r in
        let newConnections := delete connectedId (delete itemId (connections st)) in
        {| next := {| leftSide := leftSide st; rightSide := rightSide st;
                      connections := newConnections; activeId := activeId st |};
           matched := Some newConnections |}
    | _ => {| next := st; matched := None |}
    end.

Definition handleReset (readOnly : bool) (st : State) : Outcome :=
  if readOnly then {| next := st; matched := None |}
  else
    {| next := {| leftSide := leftSide st; rightSide := rightSide st;
                  connections := ∅; activeId := activeId st |};
       matched := Some ∅ |}.

(** Every entry has its mirror image: the pairs are stored both ways. *)
Definition symmetric (connections : gmap string string) : Prop :=
  forall k v, connections !! k = Some v -> connections !! v = Some k.

(** A drop from one column onto the other. *)
Definition across (activeId overId : string) : Prop :=
  (String.prefix "left" activeId = true /\ String.prefix "right" overId = true)
  \/ (String.prefix "right" activeId = true /\ String.prefix "left" overId = true).

End MatchingComponent.

(** ** Elementary facts about the helpers *)

Lemma points_or_1_nonzero (q : Question) : points_or_1 q <> 0%Z.
Proof.
  unfold points_or_1. destruct (points q) as [p|]; [|discriminate].
  destruct (Z.eqb_spec p 0); [discriminate | assumption].
Qed.

Lemma points_or_1_Some (q : Question) (p : Z) :
  points q = Some p -> p <> 0%Z -> points_or_1 q = p.
Proof.
  intros Hp Hnz. unfold points_or_1. rewrite Hp.
  destruct (Z.eqb_spec p 0); [contradiction | reflexivity].
Qed.

Lemma points_or_1_falsy (q : Question) :
  points q = Some 0%Z \/ points q = None -> points_or_1 q = 1%Z.
Proof. unfold points_or_1. intros [-> | ->]; reflexivity. Qed.

Lemma points_or_1_ge_1 (q : Question) :
  (forall p, points q = Some p -> (0 <= p)%Z) -> (1 <= points_or_1 q)%Z.
Proof.
  intros Hnn. unfold points_or_1. destruct (points q) as [p|]; [|lia].
  specialize (Hnn p eq_refl). destruct (Z.eqb_spec p 0); lia.
Qed.

Lemma countPair_fold_bounds (m : gmap string string) (l : list MatchingPair) (acc : Z) :
  (acc <= fold_left (countPair m) l acc <= acc + Z.of_nat (length l))%Z.
Proof.
  revert acc. induction l as [|pair l IH]; intros acc; simpl fold_left.
  - simpl. lia.
  - specialize (IH (countPair m acc pair)).
    assert (acc <= countPair m acc pair <= acc + 1)%Z
      by (unfold countPair; case_decide; lia).
    simpl length. lia.
Qed.

Lemma correctCount_bounds (a : Answer) (q : Question) :
  (0 <= correctCount a q <= Z.of_nat (length (correctPairs q)))%Z.
Proof. unfold correctCount. apply (countPair_fold_bounds _ _ 0%Z). Qed.

Lemma length_correctIds (q : Question) :
  length (correctIds q) = length (correctOptions q).
Proof. unfold correctIds. apply length_map. Qed.

Lemma correctSelected_nonneg (a : Answer) (q : Question) :
  (0 <= correctSelected a q)%Z.
Proof. unfold correctSelected. lia. Qed.

Lemma correctSelected_le_selected (a : Answer) (q : Question) :
  (correctSelected a q <= Z.of_nat (length (selectedIds a)))%Z.
Proof. unfold correctSelected. pose proof (length_filter (fun i => i ∈ correctIds q) (selectedIds a)). lia. Qed.

Lemma correctSelected_le_correct (a : Answer) (q : Question) :
  NoDup (selectedIds a) ->
  (correctSelected a q <= Z.of_nat (length (correctIds q)))%Z.
Proof.
  intros Hnd. unfold correctSelected. apply inj_le.
  apply submseteq_length, NoDup_submseteq.
  - by apply NoDup_filter.
  - intros x Hx. by apply list_elem_of_filter in Hx as [Hx _].
Qed.

(** ** Bounds of the four scorers *)

Section Bounds.
Variables (a : Answer) (q : Question).
Hypothesis points_nonneg : forall p, points q = Some p -> (0 <= p)%Z.

Lemma maxQ_ge_1 : (1 <= inject_Z (points_or_1 q))%Q.
Proof.
  pose proof (points_or_1_ge_1 q points_nonneg) as H.
  rewrite Zle_Qle in H. exact H.
Qed.

Lemma gradeMultipleChoice_bounds :
  (0 <= gradeMultipleChoice a q <= inject_Z (points_or_1 q))%Q.
Proof.
  pose proof maxQ_ge_1 as H1. unfold gradeMultipleChoice.
  destruct (correctOption q) as [co|]; [case_decide|]; split; lra.
Qed.

Lemma gradeMatching_bounds :
  (0 <= gradeMatching a q <= inject_Z (points_or_1 q))%Q.
Proof.
  pose proof maxQ_ge_1 as H1. unfold gradeMatching.
  destruct (Nat.eqb_spec (length (correctPairs q)) 0) as [|Hm]; [split; lra|].
  pose proof (correctCount_bounds a q) as [Hlo Hhi].
  set (m := Z.of_nat (length (correctPairs q))) in *.
  assert (Hmpos : (0 < inject_Z m)%Q).
  { change 0%Q with (inject_Z 0). rewrite <- Zlt_Qlt. lia. }
  assert (Hf0 : (0 <= inject_Z (correctCount a q) / inject_Z m)%Q).
  { apply Qle_shift_div_l; [exact Hmpos|].
    rewrite Qmult_0_l. change 0%Q with (inject_Z 0). rewrite <- Zle_Qle. exact Hlo. }
  assert (Hf1 : (inject_Z (correctCount a q) / inject_Z m <= 1)%Q).
  { apply Qle_shift_div_r; [exact Hmpos|].
    rewrite Qmult_1_l. rewrite <- Zle_Qle. exact Hhi. }
  split; nra.
Qed.

Lemma gradeMultipleSelect_bounds :
  NoDup (selectedIds a) ->
  (0 <= gradeMultipleSelect a q <= inject_Z (points_or_1 q))%Q.
Proof.
  intros Hnd. pose proof maxQ_ge_1 as H1. unfold gradeMultipleSelect.
  destruct (Nat.eqb_spec (length (correctOptions q)) 0) as [|Hn]; [split; lra|].
  rewrite <- length_correctIds in Hn.
  pose proof (correctSelected_le_correct a q Hnd) as Hc.
  pose proof (correctSelected_le_selected a q) as Hs.
  unfold incorrectSelected.
  set (n := Z.of_nat (length (correctIds q))) in *.
  set (x := (correctSelected a q - (Z.of_nat (length (selectedIds a)) - correctSelected a q))%Z).
  assert (Hnpos : (0 < inject_Z n)%Q).
  { change 0%Q with (inject_Z 0). rewrite <- Zlt_Qlt. lia. }
  assert (Hf1 : (inject_Z x / inject_Z n <= 1)%Q).
  { apply Qle_shift_div_r; [exact Hnpos|].
    rewrite Qmult_1_l. rewrite <- Zle_Qle. lia. }
  pose proof (Q.le_max_l 0 (inject_Z x / inject_Z n)) as Hlo.
  assert (Hhi : (Qmax 0 (inject_Z x / inject_Z n) <= 1)%Q)
    by (apply Q.max_lub; [lra | exact Hf1]).
  split; nra.
Qed.

Lemma shortAnswerLoop_bounds (student : string) (keys : list ShortAnswerKey) (s : Q) :
  shortAnswerLoop student q keys = Normal s ->
  (0 <= s <= inject_Z (points_or_1 q))%Q.
Proof.
  pose proof maxQ_ge_1 as H1.
  induction keys as [|k keys IH]; simpl; intros Hs.
  - injection Hs as <-. split; lra.
  - destruct (correct_answer k) as [raw|]; [|discriminate].
    destruct (truthy (is_case_sensitive k)); case_decide;
      try (injection Hs as <-; split; lra); auto.
Qed.

End Bounds.

(** A loop over keys that all carry a text completes normally. *)
Lemma shortAnswerLoop_total (student : string) (q : Question) (keys : list ShortAnswerKey) :
  keys_have_text keys ->
  exists s, shortAnswerLoop student q keys = Normal s.
Proof.
  induction 1 as [|k keys [raw Hraw] _ IH]; simpl.
  - by eexists.
  - rewrite Hraw. destruct (truthy (is_case_sensitive k)); case_decide; eauto.
Qed.

(** ** The examples of the specification, evaluated *)

Example trim_examples :
  JsString.trim "  Pa ris  " = "Pa ris"
  /\ JsString.trim (String (ascii_of_nat 9) ("Paris" ++ String (ascii_of_nat 10) "")) = "Paris"
  /\ JsString.trim "   " = "".
Proof. repeat split. Qed.

Example short_answer_case_insensitive_examples :
  calculatePoints (Fixtures.writing "paris" (Fixtures.shortAnswer (Some 5%Z) [Fixtures.paris false]))
    = Normal 5%Q
  /\ calculatePoints (Fixtures.writing " Paris " (Fixtures.shortAnswer (Some 5%Z) [Fixtures.paris false]))
    = Normal 5%Q
  /\ calculatePoints (Fixtures.writing "PARIS" (Fixtures.shortAnswer (Some 5%Z) [Fixtures.paris false]))
    = Normal 5%Q
  /\ calculatePoints (Fixtures.writing "Pari" (Fixtures.shortAnswer (Some 5%Z) [Fixtures.paris false]))
    = Normal 0%Q.
Proof. repeat split. Qed.

Example matching_examples :
  returns (calculatePoints (Fixtures.mapping {[ "cat" := "kucing"; "dog" := "anjing" ]}
                                             (Fixtures.matching (Some 10%Z)))) 10
  /\ returns (calculatePoints (Fixtures.mapping {[ "cat" := "kucing" ]}
                                                (Fixtures.matching (Some 10%Z)))) 5
  /\ returns (calculatePoints (Fixtures.mapping {[ "cat" := "Kucing"; "dog" := " anjing" ]}
                                                (Fixtures.matching (Some 10%Z)))) 0.
Proof. repeat split. Qed.

Example multiple_choice_examples :
  calculatePoints (Fixtures.selecting ["A"] (Fixtures.choice (Some 5%Z))) = Normal 5%Q
  /\ calculatePoints (Fixtures.selecting ["B"] (Fixtures.choice (Some 5%Z))) = Normal 0%Q
  /\ calculatePoints (Fixtures.selecting [] (Fixtures.choice (Some 5%Z))) = Normal 0%Q.
Proof. repeat split. Qed.

(** ** C1: the range of the awarded score *)

(** C1, as stated, fails on a question whose [points] is 0: the scorer
    substitutes 1 and awards it, above the question's maximum of 0. *)
Lemma calculatePoints_exceeds_zero_points :
  question (Fixtures.selecting ["A"] (Fixtures.choice (Some 0%Z)))
    = Some (Fixtures.choice (Some 0%Z))
  /\ points (Fixtures.choice (Some 0%Z)) = Some 0%Z
  /\ calculatePoints (Fixtures.selecting ["A"] (Fixtures.choice (Some 0%Z)))
     = Normal 1%Q
  /\ ~ (1 <= inject_Z 0)%Q.
Proof. repeat split. intros H. vm_compute in H. apply H. reflexivity. Qed.

(** An id repeated in [selected_options] is counted once per occurrence:
    with 4 points and the correct options A and B, selecting A, A, B
    yields 6. *)
Remark calculatePoints_repeated_selection :
  returns (calculatePoints (Fixtures.selecting ["A"; "A"; "B"] (Fixtures.select (Some 4%Z)))) 6.
Proof. reflexivity. Qed.

(** A negative [points] is truthy and is awarded as it is. *)
Remark calculatePoints_negative_points :
  returns (calculatePoints (Fixtures.selecting ["A"] (Fixtures.choice (Some (-2)%Z)))) (-2).
Proof. reflexivity. Qed.

(** C1 (amended).  For every question whose [points] is not negative and
    every answer whose selected option ids are pairwise distinct, a score
    returned by [calculatePoints] lies between 0 and [points || 1]; that
    maximum is [points] itself when [points] is positive; and a score is
    returned whenever every short-answer key carries a text. *)
Theorem calculatePoints_bounded (a : Answer) (q : Question) :
  question a = Some q ->
  (forall p, points q = Some p -> (0 <= p)%Z) ->
  NoDup (selectedIds a) ->
  (forall s, calculatePoints a = Normal s ->
     (0 <= s <= inject_Z (points_or_1 q))%Q)
  /\ (forall p, points q = Some p -> (0 < p)%Z -> points_or_1 q = p)
  /\ (keys_have_text (correctAnswers q) -> exists s, calculatePoints a = Normal s).
Proof.
  intros Hq Hnn Hnd. unfold calculatePoints. rewrite Hq.
  split; [|split].
  - intros s Hs.
    repeat case_decide; try (injection Hs as <-).
    + apply gradeMultipleChoice_bounds, Hnn.
    + apply gradeMultipleSelect_bounds; assumption.
    + apply gradeMatching_bounds, Hnn.
    + eapply shortAnswerLoop_bounds; eassumption.
    + pose proof (maxQ_ge_1 q Hnn). split; lra.
  - intros p Hp Hpos. apply points_or_1_Some; [assumption | lia].
  - intros Hkeys. repeat case_decide; eauto.
    apply shortAnswerLoop_total, Hkeys.
Qed.

Lemma calculatePoints_bounded_witness :
  exists s,
    calculatePoints (Fixtures.selecting ["A"] (Fixtures.select (Some 4%Z))) = Normal s
    /\ (0 <= s <= 4)%Q.
Proof.
  pose proof (calculatePoints_bounded
                (Fixtures.selecting ["A"] (Fixtures.select (Some 4%Z)))
                (Fixtures.select (Some 4%Z)) eq_refl) as H.
  destruct H as (Hrange & Hmax & Htotal).
  - intros p [= <-]. lia.
  - apply (bool_decide_unpack _). vm_compute. exact I.
  - destruct Htotal as [s Hs]; [constructor|].
    exists s. split; [exact Hs|]. apply (Hrange s Hs).
Defined.

(** ** C2: the case-sensitivity flag on the key "Paris" *)

(** C2 (evaluation at the failing input).  With the key "Paris" flagged
    case-sensitive, worth 5 points, the scorer awards the full 5 points to
    the answer "paris" as well as to "Paris": line 220 lower-cases the key
    before the flag is read.  The loop written in the specification's
    words awards 0 to "paris", and to "Paris" as well, the student's text
    being lower-cased before the comparison with the raw key. *)
Theorem gradeShortAnswer_Paris_case_sensitive :
  gradeShortAnswer (Fixtures.writing "paris" (Fixtures.shortAnswer (Some 5%Z) [Fixtures.paris true]))
                   (Fixtures.shortAnswer (Some 5%Z) [Fixtures.paris true])
    = Normal 5%Q
  /\ gradeShortAnswer (Fixtures.writing "Paris" (Fixtures.shortAnswer (Some 5%Z) [Fixtures.paris true]))
                      (Fixtures.shortAnswer (Some 5%Z) [Fixtures.paris true])
    = Normal 5%Q
  /\ gradeShortAnswer_spec (Fixtures.writing "paris" (Fixtures.shortAnswer (Some 5%Z) [Fixtures.paris true]))
                           (Fixtures.shortAnswer (Some 5%Z) [Fixtures.paris true])
    = Normal 0%Q
  /\ gradeShortAnswer_spec (Fixtures.writing "Paris" (Fixtures.shortAnswer (Some 5%Z) [Fixtures.paris true]))
                           (Fixtures.shortAnswer (Some 5%Z) [Fixtures.paris true])
    = Normal 0%Q.
Proof. split; [|split; [|split]]; reflexivity. Qed.

(** ** C3: multiple choice *)

Lemma find_first_correct (opts : list QuestionOption) (co : QuestionOption) :
  List.find (fun opt => truthy (is_correct opt)) opts = Some co
  <-> first_correct opts co.
Proof.
  unfold first_correct. induction opts as [|o opts IH]; simpl.
  - split; [discriminate|]. intros (pre & post & Heq & _).
    destruct pre; discriminate.
  - destruct (truthy (is_correct o)) eqn:Ho.
    + split.
      * intros [= <-]. exists [], opts. auto.
      * intros (pre & post & Heq & Hpre & Hco).
        destruct pre as [|o' pre]; simpl in Heq.
        -- congruence.
        -- injection Heq as <- _. apply Forall_cons_1 in Hpre as [Hpre _]. congruence.
    + rewrite IH. split.
      * intros (pre & post & -> & Hpre & Hco).
        exists (o :: pre), post. auto.
      * intros (pre & post & Heq & Hpre & Hco).
        destruct pre as [|o' pre]; simpl in Heq.
        -- injection Heq as -> _. congruence.
        -- injection Heq as <- ->. apply Forall_cons_1 in Hpre as [_ Hpre]. eauto.
Qed.

Lemma find_none_no_correct (opts : list QuestionOption) :
  List.find (fun opt => truthy (is_correct opt)) opts = None
  <-> filter (fun opt => truthy (is_correct opt)) opts = [].
Proof.
  induction opts as [|o opts IH]; simpl; [done|].
  rewrite filter_cons. destruct (truthy (is_correct o)); case_decide; try done.
Qed.

Lemma gradeMultipleChoice_full_iff (a : Answer) (q : Question) :
  gradeMultipleChoice a q = inject_Z (points_or_1 q)
  <-> first_selected_is_first_correct a q.
Proof.
  unfold gradeMultipleChoice, first_selected_is_first_correct, correctOption, selectedOptionId.
  destruct (options q) as [opts|]; simpl.
  - destruct (List.find _ opts) as [co|] eqn:Hfind.
    + apply find_first_correct in Hfind as Hfirst.
      case_decide as Hsel.
      * split; [intros _|done].
        destruct (selected_options a) as [[|i rest]|]; simplify_eq/=.
        exists opts, co, rest. auto.
      * split.
        -- intros [= Hz]. pose proof (points_or_1_nonzero q). lia.
        -- intros (opts' & co' & rest & [= <-] & Hfirst' & Hsel').
           apply find_first_correct in Hfirst'. rewrite Hsel' in Hsel.
           simpl in Hsel. congruence.
    + split.
      * intros [= Hz]. pose proof (points_or_1_nonzero q). lia.
      * intros (opts' & co' & rest & [= <-] & Hfirst' & _).
        apply find_first_correct in Hfirst'. congruence.
  - split.
    + intros [= Hz]. pose proof (points_or_1_nonzero q). lia.
    + intros (opts' & co' & rest & Hopts & _). discriminate.
Qed.

Lemma gradeMultipleChoice_two_values (a : Answer) (q : Question) :
  gradeMultipleChoice a q = inject_Z (points_or_1 q)
  \/ gradeMultipleChoice a q = 0%Q.
Proof.
  unfold gradeMultipleChoice. destruct (correctOption q); [case_decide|]; auto.
Qed.

(** C3, as stated, fails when more than one option is selected: the
    scorer reads the first selected id and ignores the rest. *)
Lemma gradeMultipleChoice_two_selected :
  selected_options (Fixtures.selecting ["A"; "B"] (Fixtures.choice (Some 5%Z)))
    = Some ["A"; "B"]
  /\ gradeMultipleChoice (Fixtures.selecting ["A"; "B"] (Fixtures.choice (Some 5%Z)))
                         (Fixtures.choice (Some 5%Z)) = 5%Q
  /\ ~ (5 == 0)%Q.
Proof. split; [|split]; [reflexivity | reflexivity | discriminate]. Qed.

(** C3 (amended).  The multiple-choice scorer awards the full points
    ([points || 1]) exactly when at least one option is selected and the
    first selected id is the id of the first option flagged correct, and 0
    in every other case: in particular when no option is selected and when
    no option is flagged correct.  Selected ids after the first are not
    read. *)
Theorem gradeMultipleChoice_first_selected (a : Answer) (q : Question) :
  (gradeMultipleChoice a q = inject_Z (points_or_1 q)
   <-> first_selected_is_first_correct a q)
  /\ (gradeMultipleChoice a q = 0%Q
      <-> ~ first_selected_is_first_correct a q)
  /\ (selectedIds a = [] -> gradeMultipleChoice a q = 0%Q)
  /\ (correctOptions q = [] -> gradeMultipleChoice a q = 0%Q)
  /\ (forall a', selectedOptionId a' = selectedOptionId a ->
                 gradeMultipleChoice a' q = gradeMultipleChoice a q).
Proof.
  pose proof (gradeMultipleChoice_full_iff a q) as Hfull.
  pose proof (points_or_1_nonzero q) as Hnz.
  assert (Hzero : gradeMultipleChoice a q = 0%Q
                  <-> ~ first_selected_is_first_correct a q).
  { rewrite <- Hfull. split.
    - intros -> [= Hz]. lia.
    - intros Hne. destruct (gradeMultipleChoice_two_values a q); [contradiction|assumption]. }
  split; [exact Hfull | split; [exact Hzero | split; [|split]]].
  - intros Hsel. apply Hzero. intros (opts & co & rest & _ & _ & Hs).
    unfold selectedIds in Hsel. rewrite Hs in Hsel. discriminate.
  - intros Hnone. apply Hzero. intros (opts & co & rest & Hopts & Hfirst & _).
    unfold correctOptions in Hnone. rewrite Hopts in Hnone. simpl in Hnone.
    apply find_none_no_correct in Hnone. apply find_first_correct in Hfirst. congruence.
  - intros a' Hsame. unfold gradeMultipleChoice. rewrite Hsame. reflexivity.
Qed.

(** ** C4: multiple select *)

Section SelectedSets.
Variables (a : Answer) (q : Question) (C S : gset string).
Hypothesis correct_distinct : NoDup (correctIds q).
Hypothesis correct_set : list_to_set (correctIds q) = C.
Hypothesis selected_distinct : NoDup (selectedIds a).
Hypothesis selected_set : list_to_set (selectedIds a) = S.

Lemma length_correctIds_size : length (correctIds q) = size C.
Proof. rewrite <- correct_set. symmetry. by apply size_list_to_set. Qed.

Lemma length_selectedIds_size : length (selectedIds a) = size S.
Proof. rewrite <- selected_set. symmetry. by apply size_list_to_set. Qed.

Lemma correctSelected_size : correctSelected a q = Z.of_nat (size (C ∩ S)).
Proof.
  unfold correctSelected. f_equal.
  rewrite <- (size_list_to_set (C := gset string)) by (by apply NoDup_filter).
  f_equal. apply set_eq. intros x.
  rewrite elem_of_list_to_set, list_elem_of_filter, elem_of_intersection.
  rewrite <- correct_set, <- selected_set, !elem_of_list_to_set. tauto.
Qed.

Lemma gradeMultipleSelect_partialCredit :
  0 < size C ->
  gradeMultipleSelect a q = (partialCredit C S * inject_Z (points_or_1 q))%Q.
Proof.
  intros Hn. unfold gradeMultipleSelect, partialCredit, incorrectSelected.
  rewrite <- length_correctIds, length_correctIds_size.
  destruct (Nat.eqb_spec (size C) 0) as [Hz|_]; [lia|].
  cbv zeta. rewrite correctSelected_size, length_selectedIds_size. reflexivity.
Qed.

End SelectedSets.

(** C4, as stated, fails on a question whose [points] is 0: the product is
    taken with [points || 1 = 1], not with [points]. *)
Lemma gradeMultipleSelect_zero_points :
  points (Fixtures.select (Some 0%Z)) = Some 0%Z
  /\ (gradeMultipleSelect (Fixtures.selecting ["A"; "B"] (Fixtures.select (Some 0%Z)))
                          (Fixtures.select (Some 0%Z)) == 1)%Q
  /\ (partialCredit {["A"; "B"]} {["A"; "B"]} * inject_Z 0 == 0)%Q
  /\ ~ (1 == 0)%Q.
Proof. split; [|split; [|split]]; [reflexivity | reflexivity | apply Qmult_0_r | discriminate]. Qed.

(** C4 (amended).  For a multiple-select question whose correct option ids
    form the set [C] of size [n > 0], and an answer whose selected ids form
    the set [S], the score is
    [max(0, (|C ∩ S| - (|S| - |C ∩ S|)) / n) * (points || 1)]:
    the factor is [points] when it is a number other than 0, and 1 when
    [points] is 0, null or absent.  With 4 points and the correct options
    A and B among A, B, C, D: selecting A, B scores 4; A scores 2; A, C
    scores 0; A, B, C, D scores 0. *)
Theorem gradeMultipleSelect_formula :
  (forall (a : Answer) (q : Question) (C S : gset string),
     NoDup (correctIds q) -> list_to_set (correctIds q) = C ->
     NoDup (selectedIds a) -> list_to_set (selectedIds a) = S ->
     0 < size C ->
     (gradeMultipleSelect a q == partialCredit C S * inject_Z (points_or_1 q))%Q
     /\ (forall p, points q = Some p -> p <> 0%Z ->
           (gradeMultipleSelect a q == partialCredit C S * inject_Z p)%Q)
     /\ (points q = Some 0%Z \/ points q = None ->
           (gradeMultipleSelect a q == partialCredit C S)%Q))
  /\ (gradeMultipleSelect (Fixtures.selecting ["A"; "B"] (Fixtures.select (Some 4%Z)))
                          (Fixtures.select (Some 4%Z)) == 4)%Q
  /\ (gradeMultipleSelect (Fixtures.selecting ["A"] (Fixtures.select (Some 4%Z)))
                          (Fixtures.select (Some 4%Z)) == 2)%Q
  /\ (gradeMultipleSelect (Fixtures.selecting ["A"; "C"] (Fixtures.select (Some 4%Z)))
                          (Fixtures.select (Some 4%Z)) == 0)%Q
  /\ (gradeMultipleSelect (Fixtures.selecting ["A"; "B"; "C"; "D"] (Fixtures.select (Some 4%Z)))
                          (Fixtures.select (Some 4%Z)) == 0)%Q.
Proof.
  split; [|repeat split].
  intros a q C S HC1 HC2 HS1 HS2 Hn.
  rewrite (gradeMultipleSelect_partialCredit a q C S HC1 HC2 HS1 HS2 Hn).
  split; [reflexivity | split].
  - intros p Hp Hnz. rewrite (points_or_1_Some q p Hp Hnz). reflexivity.
  - intros Hfalsy. rewrite (points_or_1_falsy q Hfalsy). apply Qmult_1_r.
Qed.

Lemma gradeMultipleSelect_formula_witness :
  (gradeMultipleSelect (Fixtures.selecting ["A"; "C"] (Fixtures.select (Some 4%Z)))
                       (Fixtures.select (Some 4%Z))
   == partialCredit {["A"; "B"]} {["A"; "C"]} * 4)%Q.
Proof.
  destruct gradeMultipleSelect_formula as [Hgen _].
  destruct (Hgen (Fixtures.selecting ["A"; "C"] (Fixtures.select (Some 4%Z)))
                 (Fixtures.select (Some 4%Z)) {["A"; "B"]} {["A"; "C"]}) as (_ & Hp & _).
  - apply (bool_decide_unpack _). vm_compute. exact I.
  - vm_compute. reflexivity.
  - apply (bool_decide_unpack _). vm_compute. exact I.
  - vm_compute. reflexivity.
  - vm_compute. lia.
  - apply (Hp 4%Z); [reflexivity | lia].
Defined.

(** ** C5: matching *)

Lemma countPair_fold_filter (m : gmap string string) (pairs : list MatchingPair) (acc : Z) :
  fold_left (countPair m) pairs acc = (acc + satisfiedPairs m pairs)%Z.
Proof.
  unfold satisfiedPairs. revert acc.
  induction pairs as [|pair pairs IH]; intros acc; simpl fold_left.
  - simpl. lia.
  - rewrite IH, filter_cons. unfold countPair.
    case_decide; simpl length; lia.
Qed.

Lemma correctCount_satisfiedPairs (a : Answer) (q : Question) :
  correctCount a q = satisfiedPairs (studentMatches a) (correctPairs q).
Proof. unfold correctCount. by rewrite countPair_fold_filter. Qed.

(** The counter reads the mapping at the left items of the pairs only. *)
Lemma countPair_fold_agree (m m' : gmap string string) (pairs : list MatchingPair) (acc : Z) :
  (forall pair, pair ∈ pairs -> m' !! left_item pair = m !! left_item pair) ->
  fold_left (countPair m') pairs acc = fold_left (countPair m) pairs acc.
Proof.
  revert acc. induction pairs as [|pair pairs IH]; intros acc Hagree; [reflexivity|].
  simpl. unfold countPair at 2 4. rewrite (Hagree pair) by set_solver.
  apply IH. intros pair' Hin. apply Hagree. set_solver.
Qed.

Lemma gradeMatching_agree (a a' : Answer) (q : Question) :
  (forall pair, pair ∈ correctPairs q ->
     studentMatches a' !! left_item pair = studentMatches a !! left_item pair) ->
  gradeMatching a' q = gradeMatching a q.
Proof.
  intros Hagree. unfold gradeMatching, correctCount.
  by rewrite (countPair_fold_agree _ _ _ _ Hagree).
Qed.

(** C5, as stated, fails on a question whose [points] is 0: the product is
    taken with [points || 1 = 1], not with [points]. *)
Lemma gradeMatching_zero_points :
  points (Fixtures.matching (Some 0%Z)) = Some 0%Z
  /\ (gradeMatching
        (Fixtures.mapping {[ "cat" := "kucing"; "dog" := "anjing" ]} (Fixtures.matching (Some 0%Z)))
        (Fixtures.matching (Some 0%Z)) == 1)%Q
  /\ (inject_Z (satisfiedPairs {[ "cat" := "kucing"; "dog" := "anjing" ]}
                  (correctPairs (Fixtures.matching (Some 0%Z))))
      / inject_Z 2 * inject_Z 0 == 0)%Q
  /\ ~ (1 == 0)%Q.
Proof. split; [|split; [|split]]; [reflexivity | reflexivity | apply Qmult_0_r | discriminate]. Qed.

(** C5 (amended).  For a matching question with [m > 0] correct pairs the
    score is [(correctCount / m) * (points || 1)], where [correctCount] is
    the number of correct pairs [(left, right)] whose [left] the student's
    mapping sends to exactly [right]; the factor is [points] when it is a
    number other than 0, and 1 when [points] is 0, null or absent.  The
    score depends on the mapping at the left items of the correct pairs
    only: adding, changing or removing an entry under any other key leaves
    it unchanged. *)
Theorem gradeMatching_formula (a : Answer) (q : Question) :
  0 < length (correctPairs q) ->
  (gradeMatching a q
   == inject_Z (satisfiedPairs (studentMatches a) (correctPairs q))
      / inject_Z (Z.of_nat (length (correctPairs q)))
      * inject_Z (points_or_1 q))%Q
  /\ (forall p, points q = Some p -> p <> 0%Z ->
        (gradeMatching a q
         == inject_Z (satisfiedPairs (studentMatches a) (correctPairs q))
            / inject_Z (Z.of_nat (length (correctPairs q)))
            * inject_Z p)%Q)
  /\ (points q = Some 0%Z \/ points q = None ->
        (gradeMatching a q
         == inject_Z (satisfiedPairs (studentMatches a) (correctPairs q))
            / inject_Z (Z.of_nat (length (correctPairs q))))%Q)
  /\ (forall a' k v,
        k ∉ map left_item (correctPairs q) ->
        studentMatches a' = <[k := v]> (studentMatches a)
        \/ studentMatches a' = delete k (studentMatches a) ->
        gradeMatching a' q = gradeMatching a q).
Proof.
  intros Hm.
  assert (Hform : gradeMatching a q
                  = (inject_Z (satisfiedPairs (studentMatches a) (correctPairs q))
                     / inject_Z (Z.of_nat (length (correctPairs q)))
                     * inject_Z (points_or_1 q))%Q).
  { unfold gradeMatching.
    destruct (Nat.eqb_spec (length (correctPairs q)) 0) as [Hz|_]; [lia|].
    by rewrite correctCount_satisfiedPairs. }
  split; [|split; [|split]].
  - by rewrite Hform.
  - intros p Hp Hnz. rewrite Hform, (points_or_1_Some q p Hp Hnz). reflexivity.
  - intros Hfalsy. rewrite Hform, (points_or_1_falsy q Hfalsy). apply Qmult_1_r.
  - intros a' k v Hk Hmap. apply gradeMatching_agree. intros pair Hin.
    assert (Hne : k <> left_item pair).
    { intros ->. apply Hk. apply list_elem_of_fmap. eauto. }
    destruct Hmap as [-> | ->].
    + by apply lookup_insert_ne.
    + by apply lookup_delete_ne.
Qed.

Lemma gradeMatching_formula_witness :
  (gradeMatching (Fixtures.mapping {[ "cat" := "kucing"; "dog" := "kuda" ]}
                                   (Fixtures.matching (Some 10%Z)))
                 (Fixtures.matching (Some 10%Z)) == 5)%Q
  /\ gradeMatching (Fixtures.mapping {[ "cat" := "kucing"; "bird" := "burung" ]}
                                     (Fixtures.matching (Some 10%Z)))
                   (Fixtures.matching (Some 10%Z))
     = gradeMatching (Fixtures.mapping {[ "cat" := "kucing" ]} (Fixtures.matching (Some 10%Z)))
                     (Fixtures.matching (Some 10%Z)).
Proof.
  split.
  - destruct (gradeMatching_formula
                (Fixtures.mapping {[ "cat" := "kucing"; "dog" := "kuda" ]}
                                  (Fixtures.matching (Some 10%Z)))
                (Fixtures.matching (Some 10%Z))) as (_ & Hp & _).
    + simpl. lia.
    + rewrite (Hp 10%Z); [reflexivity | reflexivity | lia].
  - destruct (gradeMatching_formula
                (Fixtures.mapping {[ "cat" := "kucing" ]} (Fixtures.matching (Some 10%Z)))
                (Fixtures.matching (Some 10%Z))) as (_ & _ & _ & Hextra).
    + simpl. lia.
    + apply (Hextra _ "bird" "burung").
      * simpl. rewrite !not_elem_of_cons. repeat split; [discriminate.. | apply not_elem_of_nil].
      * left. vm_compute. reflexivity.
Defined.

(** ** C6: essays *)

(** C6, as stated, fails: an essay answer is given the number 0 and is
    flagged as auto-graded, and the two properties the grading step sets
    are the same as for a wrong multiple-choice answer.  The result has no
    property that tells the two apart. *)
Lemma gradeAnswer_essay_like_wrong_choice :
  question_type Fixtures.essay = "essay"
  /\ gradeAnswer (Fixtures.writing "An essay." Fixtures.essay)
     = Normal {| graded_row := Fixtures.writing "An essay." Fixtures.essay;
                 is_auto_graded := true;
                 points_awarded := 0 |}
  /\ question_type (Fixtures.choice (Some 5%Z)) = "multiple_choice"
  /\ gradeAnswer (Fixtures.selecting ["B"] (Fixtures.choice (Some 5%Z)))
     = Normal {| graded_row := Fixtures.selecting ["B"] (Fixtures.choice (Some 5%Z));
                 is_auto_graded := true;
                 points_awarded := 0 |}.
Proof. split; [|split; [|split]]; reflexivity. Qed.

(** C6 (amended).  The grading result carries no status.  For an essay
    question [calculatePoints] returns the number 0, through the default
    arm of its [switch], and the batch step stores that 0 as
    [points_awarded]: the value alone does not tell an essay from a wrong
    answer, only the [question_type] of the row does. *)
Theorem calculatePoints_essay (a : Answer) (q : Question) :
  question a = Some q ->
  question_type q = "essay" ->
  calculatePoints a = Normal 0%Q
  /\ exists g, gradeAnswer a = Normal g
               /\ graded_row g = a
               /\ points_awarded g = 0%Q.
Proof.
  intros Hq Hty.
  assert (Hcalc : calculatePoints a = Normal 0%Q).
  { unfold calculatePoints. rewrite Hq, Hty. reflexivity. }
  split; [exact Hcalc|].
  unfold gradeAnswer. rewrite Hcalc. simpl. eauto.
Qed.

Lemma calculatePoints_essay_witness :
  calculatePoints (Fixtures.writing "An essay." Fixtures.essay) = Normal 0%Q.
Proof.
  apply (calculatePoints_essay (Fixtures.writing "An essay." Fixtures.essay) Fixtures.essay);
    reflexivity.
Defined.

(** ** C7: failure paths *)

Lemma toLowerCase_empty (s : string) :
  JsString.toLowerCase s = "" -> s = "".
Proof. destruct s; [reflexivity | discriminate]. Qed.

(** With an empty student text no key with a non-empty text matches. *)
Lemma shortAnswerLoop_empty_student (q : Question) (keys : list ShortAnswerKey) :
  Forall (fun k => exists t, correct_answer k = Some t /\ t <> "") keys ->
  shortAnswerLoop "" q keys = Normal 0%Q.
Proof.
  induction 1 as [|k keys (t & Ht & Hne) _ IH]; simpl; [reflexivity|].
  rewrite Ht.
  destruct (truthy (is_case_sensitive k)); case_decide as Heq; try exact IH;
    exfalso; apply Hne; symmetry in Heq.
  - by apply toLowerCase_empty.
  - by apply toLowerCase_empty, toLowerCase_empty.
Qed.

(** C7, as stated, fails: a short-answer key without a text makes the
    scorer throw a [TypeError], and the exception aborts the whole batch of
    [gradeSession]. *)
Lemma calculatePoints_throws_on_key_without_text :
  calculatePoints
    (Fixtures.writing "Paris" (Fixtures.shortAnswer (Some 5%Z) [Fixtures.noText]))
  = Throw TypeError
  /\ gradeSession
       [ Fixtures.selecting ["A"] (Fixtures.choice (Some 5%Z));
         Fixtures.writing "Paris" (Fixtures.shortAnswer (Some 5%Z) [Fixtures.noText]) ]
       None
     = Throw TypeError.
Proof. split; reflexivity. Qed.

(** An answer whose payload for the question's type is missing or empty
    is scored as nothing selected, nothing matched, nothing written. *)
Lemma gradeMultipleChoice_nothing_selected (a : Answer) (q : Question) :
  selected_options a = None \/ selected_options a = Some [] ->
  gradeMultipleChoice a q = 0%Q.
Proof.
  intros Hsel. unfold gradeMultipleChoice, selectedOptionId.
  destruct (correctOption q) as [co|]; [|reflexivity].
  destruct Hsel as [-> | ->]; reflexivity.
Qed.

Lemma gradeMultipleSelect_nothing_selected (a : Answer) (q : Question) :
  selected_options a = None \/ selected_options a = Some [] ->
  (gradeMultipleSelect a q == 0)%Q.
Proof.
  intros Hsel.
  unfold gradeMultipleSelect, incorrectSelected, correctSelected, selectedIds.
  destruct (length (correctOptions q) =? 0)%nat; [reflexivity|].
  assert (Hq0 : (inject_Z 0 / inject_Z (Z.of_nat (length (correctIds q))) == 0)%Q)
    by (unfold Qdiv; apply Qmult_0_l).
  destruct Hsel as [-> | ->]; simpl;
    change (Z.of_nat 0 - (Z.of_nat 0 - Z.of_nat 0))%Z with 0%Z;
    rewrite Hq0, Q.max_id; apply Qmult_0_l.
Qed.

Lemma gradeMatching_nothing_matched (a : Answer) (q : Question) :
  matching_answers a = None \/ matching_answers a = Some ∅ ->
  (gradeMatching a q == 0)%Q.
Proof.
  intros Hmap. unfold gradeMatching, correctCount.
  assert (Hempty : studentMatches a = ∅)
    by (unfold studentMatches; destruct Hmap as [-> | ->]; reflexivity).
  rewrite Hempty.
  destruct (length (correctPairs q) =? 0)%nat; [reflexivity|].
  rewrite countPair_fold_filter.
  assert (Hnone : satisfiedPairs ∅ (correctPairs q) = 0%Z).
  { unfold satisfiedPairs.
    induction (correctPairs q) as [|pair l IH]; [reflexivity|].
    rewrite filter_cons. case_decide as Hl; [|exact IH].
    by rewrite lookup_empty in Hl. }
  rewrite Hnone. simpl Z.add. unfold Qdiv. rewrite !Qmult_0_l. reflexivity.
Qed.

Lemma gradeShortAnswer_nothing_written (a : Answer) (q : Question) :
  answer_text a = None \/ answer_text a = Some "" ->
  (forall keys, short_answer_keys q = Some keys ->
     Forall (fun k => exists t, correct_answer k = Some t /\ t <> "") keys) ->
  gradeShortAnswer a q = Normal 0%Q.
Proof.
  intros Htext Hkeys. unfold gradeShortAnswer.
  assert (Hst : studentAnswer a = "")
    by (unfold studentAnswer; destruct Htext as [-> | ->]; reflexivity).
  rewrite Hst. apply shortAnswerLoop_empty_student.
  unfold correctAnswers. destruct (short_answer_keys q) as [keys|]; simpl.
  - by apply Hkeys.
  - constructor.
Qed.

(** C7 (amended).  [calculatePoints] returns a bare number, without a
    status.  It returns 0 when the question reference is missing; it
    returns a number, and does not throw, whenever every short-answer key
    of the question carries a text; it returns 0 when the question carries
    no correct-answer data.  A malformed answer payload scores 0: when the
    payload that the question's type reads is missing or empty, whatever
    the answer carries in its other payload fields, the score is 0 for a
    multiple-choice, a multiple-select and a matching question, and for a
    short-answer question provided that no key has an empty text.
    Nothing is stated for a key without a text. *)
Theorem calculatePoints_degrades (a : Answer) :
  (question a = None -> calculatePoints a = Normal 0%Q)
  /\ (forall q, question a = Some q ->
        keys_have_text (correctAnswers q) ->
        exists s, calculatePoints a = Normal s)
  /\ (forall q, question a = Some q ->
        options q = None -> matching_pairs q = None -> short_answer_keys q = None ->
        calculatePoints a = Normal 0%Q)
  /\ (forall q, question a = Some q ->
        answer_text a = None -> selected_options a = None -> matching_answers a = None ->
        Forall (fun k => exists t, correct_answer k = Some t /\ t <> "") (correctAnswers q) ->
        returns (calculatePoints a) 0)
  /\ (forall q, question a = Some q ->
        question_type q = "multiple_choice" \/ question_type q = "multiple_select" ->
        selected_options a = None \/ selected_options a = Some [] ->
        returns (calculatePoints a) 0)
  /\ (forall q, question a = Some q ->
        question_type q = "matching" ->
        matching_answers a = None \/ matching_answers a = Some ∅ ->
        returns (calculatePoints a) 0)
  /\ (forall q, question a = Some q ->
        question_type q = "short_answer" ->
        answer_text a = None \/ answer_text a = Some "" ->
        (forall keys, short_answer_keys q = Some keys ->
           Forall (fun k => exists t, correct_answer k = Some t /\ t <> "") keys) ->
        returns (calculatePoints a) 0).
Proof.
  split; [|split; [|split; [|split; [|split; [|split]]]]].
  - intros Hq. unfold calculatePoints. by rewrite Hq.
  - intros q Hq Hkeys. unfold calculatePoints. rewrite Hq.
    repeat case_decide; eauto. by apply shortAnswerLoop_total.
  - intros q Hq Hopts Hpairs Hkeys. unfold calculatePoints. rewrite Hq.
    unfold gradeMultipleChoice, gradeMultipleSelect, gradeMatching, gradeShortAnswer,
      correctOption, correctOptions, correctPairs, correctAnswers.
    rewrite Hopts, Hpairs, Hkeys. simpl. by repeat case_decide.
  - intros q Hq Htext Hsel Hmap Hkeys. unfold calculatePoints. rewrite Hq.
    repeat case_decide; simpl.
    + unfold gradeMultipleChoice, selectedOptionId. rewrite Hsel. simpl.
      destruct (correctOption q); reflexivity.
    + unfold gradeMultipleSelect, incorrectSelected, correctSelected, selectedIds.
      rewrite Hsel. simpl.
      destruct (length (correctOptions q) =? 0)%nat; [reflexivity|].
      change (Z.of_nat 0 - (Z.of_nat 0 - Z.of_nat 0))%Z with 0%Z.
      assert (Hq0 : (inject_Z 0 / inject_Z (Z.of_nat (length (correctIds q))) == 0)%Q)
        by (unfold Qdiv; apply Qmult_0_l).
      rewrite Hq0. rewrite Q.max_id. apply Qmult_0_l.
    + unfold gradeMatching, correctCount, studentMatches. rewrite Hmap. simpl.
      destruct (length (correctPairs q) =? 0)%nat; [reflexivity|].
      rewrite countPair_fold_filter.
      assert (Hnone : satisfiedPairs ∅ (correctPairs q) = 0%Z).
      { unfold satisfiedPairs.
        induction (correctPairs q) as [|pair l IH]; [reflexivity|].
        rewrite filter_cons. case_decide as Hl; [|exact IH].
        by rewrite lookup_empty in Hl. }
      rewrite Hnone. simpl Z.add. unfold Qdiv. rewrite !Qmult_0_l. reflexivity.
    + unfold gradeShortAnswer, studentAnswer. rewrite Htext. simpl.
      rewrite (shortAnswerLoop_empty_student q _ Hkeys). reflexivity.
    + reflexivity.
  - intros q Hq [Hty | Hty] Hsel; unfold calculatePoints; rewrite Hq, Hty; simpl.
    + by rewrite (gradeMultipleChoice_nothing_selected a q Hsel).
    + by apply gradeMultipleSelect_nothing_selected.
  - intros q Hq Hty Hmap. unfold calculatePoints. rewrite Hq, Hty. simpl.
    by apply gradeMatching_nothing_matched.
  - intros q Hq Hty Htext Hkeys. unfold calculatePoints. rewrite Hq, Hty. simpl.
    by rewrite (gradeShortAnswer_nothing_written a q Htext Hkeys).
Qed.

Lemma calculatePoints_degrades_witness :
  calculatePoints Fixtures.orphan = Normal 0%Q
  /\ (exists s,
        calculatePoints
          (Fixtures.writing "paris" (Fixtures.shortAnswer (Some 5%Z) [Fixtures.paris false]))
        = Normal s)
  /\ returns (calculatePoints
                (Fixtures.mapping {[ "A" := "B" ]} (Fixtures.choice (Some 5%Z)))) 0
  /\ returns (calculatePoints
                (Fixtures.writing "A" (Fixtures.select (Some 4%Z)))) 0
  /\ returns (calculatePoints
                (Fixtures.selecting ["cat"] (Fixtures.matching (Some 10%Z)))) 0
  /\ returns (calculatePoints
                (Fixtures.selecting ["Paris"]
                   (Fixtures.shortAnswer (Some 5%Z) [Fixtures.paris false]))) 0.
Proof.
  split; [|split; [|split; [|split; [|split]]]].
  - apply (proj1 (calculatePoints_degrades Fixtures.orphan)). reflexivity.
  - apply (proj1 (proj2 (calculatePoints_degrades
                           (Fixtures.writing "paris"
                              (Fixtures.shortAnswer (Some 5%Z) [Fixtures.paris false]))))
                 (Fixtures.shortAnswer (Some 5%Z) [Fixtures.paris false])).
    + reflexivity.
    + repeat constructor. by eexists.
  - destruct (calculatePoints_degrades
                (Fixtures.mapping {[ "A" := "B" ]} (Fixtures.choice (Some 5%Z))))
      as (_ & _ & _ & _ & Hsel & _).
    apply (Hsel (Fixtures.choice (Some 5%Z))); [reflexivity | by left | by left].
  - destruct (calculatePoints_degrades (Fixtures.writing "A" (Fixtures.select (Some 4%Z))))
      as (_ & _ & _ & _ & Hsel & _).
    apply (Hsel (Fixtures.select (Some 4%Z))); [reflexivity | by right | by left].
  - destruct (calculatePoints_degrades
                (Fixtures.selecting ["cat"] (Fixtures.matching (Some 10%Z))))
      as (_ & _ & _ & _ & _ & Hmap & _).
    apply (Hmap (Fixtures.matching (Some 10%Z))); [reflexivity | reflexivity | by left].
  - destruct (calculatePoints_degrades
                (Fixtures.selecting ["Paris"]
                   (Fixtures.shortAnswer (Some 5%Z) [Fixtures.paris false])))
      as (_ & _ & _ & _ & _ & _ & Htext).
    apply (Htext (Fixtures.shortAnswer (Some 5%Z) [Fixtures.paris false]));
      [reflexivity | reflexivity | by left |].
    intros keys [= <-]. repeat constructor. exists "Paris". by split.
Defined.

(** ** C8: zero denominators *)

Lemma correctOptions_none (q : Question) :
  (forall opts o, options q = Some opts -> o ∈ opts -> truthy (is_correct o) = false) ->
  correctOptions q = [].
Proof.
  intros Hnone. unfold correctOptions.
  destruct (options q) as [opts|]; [|reflexivity]. simpl.
  assert (Hall : forall o, o ∈ opts -> truthy (is_correct o) = false)
    by (intros o; by apply Hnone).
  clear Hnone. induction opts as [|o opts IH]; [reflexivity|].
  rewrite filter_cons_False.
  - apply IH. intros o' Hin. apply Hall. by right.
  - rewrite (Hall o) by left. simpl. tauto.
Qed.

Lemma correctPairs_none (q : Question) :
  matching_pairs q = None \/ matching_pairs q = Some [] ->
  correctPairs q = [].
Proof. unfold correctPairs. by intros [-> | ->]. Qed.

(** C8.  A multiple-select question with no option flagged correct, and a
    matching question with no stored pair, are scored without throwing and
    score exactly 0, whatever the answer. *)
Theorem zero_denominator_scores_zero (a : Answer) (q : Question) :
  question a = Some q ->
  (question_type q = "multiple_select" ->
   (forall opts o, options q = Some opts -> o ∈ opts -> truthy (is_correct o) = false) ->
   gradeMultipleSelect a q = 0%Q /\ calculatePoints a = Normal 0%Q)
  /\ (question_type q = "matching" ->
      matching_pairs q = None \/ matching_pairs q = Some [] ->
      gradeMatching a q = 0%Q /\ calculatePoints a = Normal 0%Q).
Proof.
  intros Hq. split; intros Hty Hnone.
  - assert (Hms : gradeMultipleSelect a q = 0%Q)
      by (unfold gradeMultipleSelect; rewrite (correctOptions_none q Hnone); reflexivity).
    split; [exact Hms|].
    unfold calculatePoints. rewrite Hq, Hty, Hms. reflexivity.
  - assert (Hm : gradeMatching a q = 0%Q)
      by (unfold gradeMatching; rewrite (correctPairs_none q Hnone); reflexivity).
    split; [exact Hm|].
    unfold calculatePoints. rewrite Hq, Hty, Hm. reflexivity.
Qed.

Lemma zero_denominator_scores_zero_witness :
  calculatePoints (Fixtures.selecting ["C"; "D"] Fixtures.noCorrectSelect) = Normal 0%Q
  /\ calculatePoints (Fixtures.mapping {[ "cat" := "kucing" ]} Fixtures.noPairs) = Normal 0%Q.
Proof.
  split.
  - apply (proj1 (zero_denominator_scores_zero
                    (Fixtures.selecting ["C"; "D"] Fixtures.noCorrectSelect)
                    Fixtures.noCorrectSelect eq_refl)); [reflexivity|].
    intros opts o [= <-] Hin.
    repeat (apply elem_of_cons in Hin as [-> | Hin]; [reflexivity|]).
    by apply elem_of_nil in Hin.
  - apply (proj2 (zero_denominator_scores_zero
                    (Fixtures.mapping {[ "cat" := "kucing" ]} Fixtures.noPairs)
                    Fixtures.noPairs eq_refl)); [reflexivity|].
    right. reflexivity.
Defined.

(** ** C9: the case-sensitivity flag has no effect *)

Lemma lowerChar_idempotent (c : ascii) :
  JsString.lowerChar (JsString.lowerChar c) = JsString.lowerChar c.
Proof. destruct c as [[] [] [] [] [] [] [] []]; reflexivity. Qed.

Lemma toLowerCase_idempotent (s : string) :
  JsString.toLowerCase (JsString.toLowerCase s) = JsString.toLowerCase s.
Proof.
  induction s as [|c s IH]; simpl; [reflexivity|].
  by rewrite lowerChar_idempotent, IH.
Qed.

(** Both arms of the loop test the student's text against the lower-cased
    key. *)
Lemma shortAnswerLoop_unfold (student : string) (q : Question)
    (k : ShortAnswerKey) (keys : list ShortAnswerKey) (raw : string) :
  correct_answer k = Some raw ->
  shortAnswerLoop student q (k :: keys)
  = if decide (student = JsString.toLowerCase raw)
    then Normal (inject_Z (points_or_1 q))
    else shortAnswerLoop student q keys.
Proof.
  intros Hraw. simpl. rewrite Hraw, toLowerCase_idempotent.
  by destruct (truthy (is_case_sensitive k)).
Qed.

Lemma shortAnswerLoop_texts_only (student : string) (q q' : Question)
    (keys keys' : list ShortAnswerKey) :
  points_or_1 q' = points_or_1 q ->
  map correct_answer keys' = map correct_answer keys ->
  shortAnswerLoop student q' keys' = shortAnswerLoop student q keys.
Proof.
  intros Hp. revert keys'.
  induction keys as [|k keys IH]; intros [|k' keys'] Hmap; try discriminate; [reflexivity|].
  injection Hmap as Hk Hrest.
  destruct (correct_answer k) as [raw|] eqn:Hraw.
  - rewrite (shortAnswerLoop_unfold _ _ k _ raw Hraw).
    rewrite (shortAnswerLoop_unfold _ _ k' _ raw Hk).
    rewrite Hp, (IH keys' Hrest). reflexivity.
  - simpl. by rewrite Hk, Hraw.
Qed.

Lemma alter_flip_flag_texts (i : nat) (keys : list ShortAnswerKey) :
  map correct_answer (alter flip_flag i keys) = map correct_answer keys.
Proof.
  revert i. induction keys as [|k keys IH]; intros [|i]; try reflexivity.
  change (alter flip_flag (S i) (k :: keys)) with (k :: alter flip_flag i keys).
  simpl map. by rewrite IH.
Qed.

(** C9.  The result of [gradeShortAnswer] depends on the texts of the
    answer keys only: two questions with the same points and the same key
    texts in the same order, whatever their [is_case_sensitive] flags,
    are scored alike on every answer; in particular the result is
    unchanged when the flag of any one key is flipped. *)
Theorem gradeShortAnswer_flag_irrelevant (a : Answer) (q : Question) :
  (forall q',
     points q' = points q ->
     map correct_answer (correctAnswers q') = map correct_answer (correctAnswers q) ->
     gradeShortAnswer a q' = gradeShortAnswer a q)
  /\ (forall i, gradeShortAnswer a (flip_case_flag i q) = gradeShortAnswer a q).
Proof.
  assert (Hgen : forall q',
             points q' = points q ->
             map correct_answer (correctAnswers q') = map correct_answer (correctAnswers q) ->
             gradeShortAnswer a q' = gradeShortAnswer a q).
  { intros q' Hp Hkeys. unfold gradeShortAnswer.
    apply shortAnswerLoop_texts_only; [|exact Hkeys].
    unfold points_or_1. by rewrite Hp. }
  split; [exact Hgen|].
  intros i. apply Hgen; [reflexivity|].
  unfold correctAnswers, flip_case_flag. simpl.
  destruct (short_answer_keys q) as [keys|]; [|reflexivity].
  exact (alter_flip_flag_texts i keys).
Qed.

Lemma gradeShortAnswer_flag_irrelevant_witness :
  gradeShortAnswer (Fixtures.writing " PARIS " (Fixtures.shortAnswer (Some 5%Z) [Fixtures.paris true]))
                   (Fixtures.shortAnswer (Some 5%Z) [Fixtures.paris false])
  = gradeShortAnswer (Fixtures.writing " PARIS " (Fixtures.shortAnswer (Some 5%Z) [Fixtures.paris true]))
                     (Fixtures.shortAnswer (Some 5%Z) [Fixtures.paris true]).
Proof.
  apply (proj1 (gradeShortAnswer_flag_irrelevant
                  (Fixtures.writing " PARIS " (Fixtures.shortAnswer (Some 5%Z) [Fixtures.paris true]))
                  (Fixtures.shortAnswer (Some 5%Z) [Fixtures.paris true])));
    reflexivity.
Defined.

(** ** C10: a falsy [points] counts as 1 *)

(** The scorers read a question through its correct-answer data and
    through [points || 1]. *)
Lemma scorers_read_points_or_1 (a : Answer) (q q' : Question) :
  options q' = options q ->
  matching_pairs q' = matching_pairs q ->
  short_answer_keys q' = short_answer_keys q ->
  points_or_1 q' = points_or_1 q ->
  gradeMultipleChoice a q' = gradeMultipleChoice a q
  /\ gradeMultipleSelect a q' = gradeMultipleSelect a q
  /\ gradeMatching a q' = gradeMatching a q
  /\ gradeShortAnswer a q' = gradeShortAnswer a q.
Proof.
  intros Ho Hm Hk Hp.
  unfold gradeMultipleChoice, gradeMultipleSelect, gradeMatching, gradeShortAnswer,
    correctOption, incorrectSelected, correctSelected, correctIds, correctOptions,
    correctCount, correctPairs, correctAnswers.
  rewrite Ho, Hm, Hk, Hp. repeat split.
  apply shortAnswerLoop_texts_only; [exact Hp | reflexivity].
Qed.

Lemma filter_all {A} (P : A -> Prop) `{forall x, Decision (P x)} (l : list A) :
  Forall P l -> filter P l = l.
Proof.
  induction 1 as [|x l Hx _ IH]; [reflexivity|].
  by rewrite filter_cons_True, IH.
Qed.

Lemma Qdiv_same_pos (n : Z) : (0 < n)%Z -> (inject_Z n / inject_Z n == 1)%Q.
Proof.
  intros Hn. apply Qmult_inv_r. intros Heq.
  apply (proj1 (Qeq_alt _ _)) in Heq. unfold inject_Z, Qcompare in Heq. simpl in Heq.
  rewrite Z.mul_1_r in Heq. apply Z.compare_eq in Heq. lia.
Qed.

(** A key that matches, in a list of keys that all carry a text, ends the
    loop with the full points. *)
Lemma shortAnswerLoop_match (student : string) (q : Question) (keys : list ShortAnswerKey) :
  keys_have_text keys ->
  (exists k raw, k ∈ keys /\ correct_answer k = Some raw
                 /\ student = JsString.toLowerCase raw) ->
  shortAnswerLoop student q keys = Normal (inject_Z (points_or_1 q)).
Proof.
  induction 1 as [|k keys [raw Hraw] _ IH]; intros (k0 & raw0 & Hin & Hraw0 & Hst).
  - by apply elem_of_nil in Hin.
  - rewrite (shortAnswerLoop_unfold _ _ _ _ raw Hraw).
    case_decide as Hd; [reflexivity|]. apply IH.
    apply elem_of_cons in Hin as [-> | Hin]; [congruence | eauto].
Qed.

(** C10.  When [points] is 0, null or absent, every scorer behaves as on
    the same question worth 1 point, and a fully correct answer is awarded
    1: a multiple-choice answer whose first selected id is the first
    correct option; a multiple-select answer whose [selected_options] are
    the ids of the options flagged correct, each once, in any order; a
    matching answer whose [matching_answers] send the left item of every
    stored pair to its right item; a short answer whose [answer_text],
    trimmed and lower-cased, is the lower-cased text of a key. *)
Theorem falsy_points_default_to_one (a : Answer) (q : Question) :
  points q = Some 0%Z \/ points q = None ->
  points_or_1 q = 1%Z
  /\ gradeMultipleChoice a q = gradeMultipleChoice a (with_points (Some 1%Z) q)
  /\ gradeMultipleSelect a q = gradeMultipleSelect a (with_points (Some 1%Z) q)
  /\ gradeMatching a q = gradeMatching a (with_points (Some 1%Z) q)
  /\ gradeShortAnswer a q = gradeShortAnswer a (with_points (Some 1%Z) q)
  /\ (first_selected_is_first_correct a q -> gradeMultipleChoice a q = 1%Q)
  /\ (forall sel opts,
        selected_options a = Some sel ->
        options q = Some opts ->
        sel <> [] ->
        sel ≡ₚ map id (filter (fun opt => truthy (is_correct opt)) opts) ->
        (gradeMultipleSelect a q == 1)%Q)
  /\ (forall m pairs,
        matching_answers a = Some m ->
        matching_pairs q = Some pairs ->
        pairs <> [] ->
        Forall (fun pair => m !! left_item pair = Some (right_item pair)) pairs ->
        (gradeMatching a q == 1)%Q)
  /\ (forall t keys,
        answer_text a = Some t ->
        short_answer_keys q = Some keys ->
        Forall (fun k => is_Some (correct_answer k)) keys ->
        (exists k raw, k ∈ keys /\ correct_answer k = Some raw
                       /\ JsString.toLowerCase (JsString.trim t) = JsString.toLowerCase raw) ->
        gradeShortAnswer a q = Normal 1%Q).
Proof.
  intros Hfalsy. pose proof (points_or_1_falsy q Hfalsy) as H1.
  destruct (scorers_read_points_or_1 a q (with_points (Some 1%Z) q))
    as (Hmc & Hms & Hm & Hsa); try reflexivity; [by rewrite H1|].
  split; [exact H1|]. split; [by rewrite Hmc|]. split; [by rewrite Hms|].
  split; [by rewrite Hm|]. split; [by rewrite Hsa|].
  split; [|split; [|split]].
  - intros Hfirst. apply gradeMultipleChoice_full_iff in Hfirst.
    by rewrite Hfirst, H1.
  - intros sel opts Hsel Hopts Hne Hperm.
    assert (Hids : correctIds q = map id (filter (fun opt => truthy (is_correct opt)) opts))
      by (unfold correctIds, correctOptions; by rewrite Hopts).
    assert (Hsids : selectedIds a = sel) by (unfold selectedIds; by rewrite Hsel).
    rewrite <- Hids in Hperm.
    unfold gradeMultipleSelect, incorrectSelected, correctSelected.
    rewrite <- length_correctIds, Hsids.
    destruct (Nat.eqb_spec (length (correctIds q)) 0) as [Hz|Hnz].
    { exfalso. apply Hne. apply Permutation_length in Hperm.
      destruct sel; [reflexivity | simpl in Hperm; lia]. }
    rewrite filter_all by (apply Forall_forall; intros x Hx; by rewrite <- Hperm).
    rewrite (Permutation_length Hperm), H1.
    set (n := Z.of_nat (length (correctIds q))).
    replace (n - (n - n))%Z with n by lia.
    rewrite Qdiv_same_pos by lia.
    reflexivity.
  - intros m pairs Hmap Hpairs Hne Hall.
    assert (Hcp : correctPairs q = pairs) by (unfold correctPairs; by rewrite Hpairs).
    assert (Hsm : studentMatches a = m) by (unfold studentMatches; by rewrite Hmap).
    unfold gradeMatching. rewrite Hcp.
    destruct (Nat.eqb_spec (length pairs) 0) as [Hz|Hnz].
    { destruct pairs; [contradiction | discriminate]. }
    rewrite correctCount_satisfiedPairs, Hcp, Hsm. unfold satisfiedPairs.
    rewrite filter_all by exact Hall.
    rewrite Qdiv_same_pos by lia. rewrite H1. reflexivity.
  - intros t keys Htext Hkeys Hhave (k & raw & Hin & Hraw & Hst).
    assert (Hca : correctAnswers q = keys) by (unfold correctAnswers; by rewrite Hkeys).
    assert (Hsa' : studentAnswer a = JsString.toLowerCase (JsString.trim t))
      by (unfold studentAnswer; by rewrite Htext).
    unfold gradeShortAnswer. rewrite Hca, Hsa'.
    rewrite (shortAnswerLoop_match _ q keys Hhave), H1; [reflexivity|].
    by exists k, raw.
Qed.

Lemma falsy_points_default_to_one_witness :
  gradeMultipleChoice (Fixtures.selecting ["A"] (Fixtures.choice (Some 0%Z)))
                      (Fixtures.choice (Some 0%Z)) = 1%Q
  /\ (gradeMultipleSelect (Fixtures.selecting ["B"; "A"] (Fixtures.select (Some 0%Z)))
                          (Fixtures.select (Some 0%Z)) == 1)%Q
  /\ (gradeMatching (Fixtures.mapping {[ "cat" := "kucing"; "dog" := "anjing" ]}
                                      (Fixtures.matching None))
                    (Fixtures.matching None) == 1)%Q
  /\ gradeShortAnswer
       (Fixtures.writing " PARIS " (Fixtures.shortAnswer None [Fixtures.paris false]))
       (Fixtures.shortAnswer None [Fixtures.paris false])
     = Normal 1%Q.
Proof.
  split; [|split; [|split]].
  - destruct (falsy_points_default_to_one
                (Fixtures.selecting ["A"] (Fixtures.choice (Some 0%Z)))
                (Fixtures.choice (Some 0%Z))) as (_ & _ & _ & _ & _ & Hmc & _).
    + left. reflexivity.
    + apply Hmc. exists [Fixtures.opt "A" true; Fixtures.opt "B" false], (Fixtures.opt "A" true), [].
      split; [reflexivity|]. split; [|reflexivity].
      exists [], [Fixtures.opt "B" false]. repeat split. constructor.
  - destruct (falsy_points_default_to_one
                (Fixtures.selecting ["B"; "A"] (Fixtures.select (Some 0%Z)))
                (Fixtures.select (Some 0%Z))) as (_ & _ & _ & _ & _ & _ & Hms & _).
    + left. reflexivity.
    + apply (Hms ["B"; "A"]
                 [Fixtures.opt "A" true; Fixtures.opt "B" true;
                  Fixtures.opt "C" false; Fixtures.opt "D" false]);
        [reflexivity | reflexivity | discriminate |].
      change (map id (filter (fun opt => truthy (is_correct opt))
                        [Fixtures.opt "A" true; Fixtures.opt "B" true;
                         Fixtures.opt "C" false; Fixtures.opt "D" false]))
        with ["A"; "B"].
      apply perm_swap.
  - destruct (falsy_points_default_to_one
                (Fixtures.mapping {[ "cat" := "kucing"; "dog" := "anjing" ]}
                                  (Fixtures.matching None))
                (Fixtures.matching None)) as (_ & _ & _ & _ & _ & _ & _ & Hm & _).
    + right. reflexivity.
    + apply (Hm {[ "cat" := "kucing"; "dog" := "anjing" ]}
                [ {| left_item := "cat"; right_item := "kucing" |};
                  {| left_item := "dog"; right_item := "anjing" |} ]);
        [reflexivity | reflexivity | discriminate |].
      repeat constructor.
  - destruct (falsy_points_default_to_one
                (Fixtures.writing " PARIS " (Fixtures.shortAnswer None [Fixtures.paris false]))
                (Fixtures.shortAnswer None [Fixtures.paris false]))
      as (_ & _ & _ & _ & _ & _ & _ & _ & Hsa).
    + right. reflexivity.
    + apply (Hsa " PARIS " [Fixtures.paris false]); [reflexivity | reflexivity | |].
      * repeat constructor. by eexists.
      * exists (Fixtures.paris false), "Paris".
        split; [by left|]. split; reflexivity.
Defined.

(** * Further properties of the code *)

(** ** The batch step of [gradeSession] *)

Lemma mapC_Normal_iff {A B} (f : A -> completion B) (l : list A) (ys : list B) :
  mapC f l = Normal ys <-> Forall2 (fun x y => f x = Normal y) l ys.
Proof.
  revert ys. induction l as [|x l IH]; intros ys; simpl.
  - split.
    + intros [= <-]. constructor.
    + intros H. by inversion H.
  - destruct (f x) as [y|e] eqn:Hfx; simpl.
    + destruct (mapC f l) as [ys'|e] eqn:Hl; simpl.
      * split.
        -- intros [= <-]. constructor; [done | by apply IH].
        -- intros H. inversion H as [|? y0 ? ys0 Hy Hrest]; subst.
           apply IH in Hrest. congruence.
      * split; [discriminate|].
        intros H. inversion H as [|? y0 ? ys0 Hy Hrest]; subst.
        apply IH in Hrest. discriminate.
    + split; [discriminate|].
      intros H. inversion H; congruence.
Qed.

Lemma mapC_Throw_iff {A B} (f : A -> completion B) (l : list A) (e : JsError) :
  mapC f l = Throw e <-> Exists (fun x => exists e', f x = Throw e') l.
Proof.
  destruct e.
  induction l as [|x l IH]; simpl.
  - split; [discriminate | by intros H%Exists_nil].
  - rewrite Exists_cons. destruct (f x) as [y|[]] eqn:Hfx; simpl.
    + destruct (mapC f l) as [ys|[]]; simpl.
      * split; [discriminate|]. intros [[e' He']|H]; [discriminate|].
        apply IH in H. discriminate.
      * split; [|done]. intros _. right. by apply IH.
    + split; [|done]. intros _. left. by exists TypeError.
Qed.

Lemma gradeAnswer_Normal_iff (a : Answer) (g : GradedAnswer) :
  gradeAnswer a = Normal g
  <-> calculatePoints a = Normal (points_awarded g)
      /\ graded_row g = a /\ is_auto_graded g = true.
Proof.
  unfold gradeAnswer. destruct (calculatePoints a) as [p|e]; simpl.
  - split.
    + by intros [= <-].
    + destruct g as [r f p']. simpl. intros ([= ->] & -> & ->). reflexivity.
  - split; [discriminate | by intros [? _]].
Qed.

(** X1.  When the query reports no error, [gradeSession] answers with data
    exactly when every answer is scored without an exception, and the data
    then hold one row per answer, in the order of the answers: the answer
    itself, flagged [is_auto_graded], with the score of [calculatePoints]
    as [points_awarded]. *)
Theorem gradeSession_data_iff (answers : list Answer) (data : list GradedAnswer) :
  gradeSession answers None = Normal (SessionData data)
  <-> Forall2 (fun a g => calculatePoints a = Normal (points_awarded g)
                          /\ graded_row g = a /\ is_auto_graded g = true)
              answers data.
Proof.
  unfold gradeSession.
  destruct (mapC gradeAnswer answers) as [gs|e] eqn:Hmap; simpl.
  - apply mapC_Normal_iff in Hmap. split.
    + intros [= <-]. eapply Forall2_impl; [exact Hmap|].
      intros a g Hg. by apply gradeAnswer_Normal_iff.
    + intros Hdata. f_equal. f_equal.
      assert (Hdata' : Forall2 (fun a g => gradeAnswer a = Normal g) answers data).
      { eapply Forall2_impl; [exact Hdata|]. intros a g Hg. by apply gradeAnswer_Normal_iff. }
      clear Hdata. revert data Hdata'.
      induction Hmap as [|a g answers gs Hag _ IH]; intros data Hdata;
        inversion Hdata as [|? g' ? data' Hag' Hrest]; subst; [reflexivity|].
      f_equal; [congruence | by apply IH].
  - split; [discriminate|]. intros Hdata.
    assert (Hok : mapC gradeAnswer answers = Normal data).
    { apply mapC_Normal_iff. eapply Forall2_impl; [exact Hdata|].
      intros a g Hg. by apply gradeAnswer_Normal_iff. }
    congruence.
Qed.

(** X2.  A query error is passed on without any grading; without a query
    error, [gradeSession] throws exactly when [calculatePoints] throws on
    one of the answers: a single such row leaves the whole batch without
    data. *)
Theorem gradeSession_throws_iff (answers : list Answer) :
  (forall e, gradeSession answers (Some e) = Normal (SessionError e))
  /\ (gradeSession answers None = Throw TypeError
      <-> Exists (fun a => calculatePoints a = Throw TypeError) answers).
Proof.
  split; [reflexivity|]. unfold gradeSession.
  destruct (mapC gradeAnswer answers) as [gs|[]] eqn:Hmap; simpl.
  - split; [discriminate|]. intros Hex.
    assert (Hthrow : mapC gradeAnswer answers = Throw TypeError).
    { apply mapC_Throw_iff. eapply Exists_impl; [exact Hex|].
      intros a Ha. exists TypeError. unfold gradeAnswer. by rewrite Ha. }
    congruence.
  - split; [intros _|done]. apply mapC_Throw_iff in Hmap.
    eapply Exists_impl; [exact Hmap|].
    intros a [e' He']. unfold gradeAnswer in He'.
    destruct (calculatePoints a) as [p|[]]; [discriminate | reflexivity].
Qed.

Lemma calculatePoints_without_relations (a : Answer) :
  (forall q, question a = Some q -> without_relations q) ->
  calculatePoints a = Normal 0%Q.
Proof.
  intros Hrel. unfold calculatePoints.
  destruct (question a) as [q|]; [|reflexivity].
  destruct (Hrel q eq_refl) as (Hopts & Hpairs & Hkeys).
  unfold gradeMultipleChoice, gradeMultipleSelect, gradeMatching, gradeShortAnswer,
    correctOption, correctOptions, correctPairs, correctAnswers.
  rewrite Hopts, Hpairs, Hkeys. simpl. by repeat case_decide.
Qed.

(** X3.  When the question rows come without their relations, as the
    select string of [gradeSession] asks for them, every answer of the
    batch is awarded 0 and no exception is thrown, whatever the answers
    and the question types are. *)
Theorem gradeSession_without_relations (answers : list Answer) :
  Forall (fun a => forall q, question a = Some q -> without_relations q) answers ->
  gradeSession answers None
  = Normal (SessionData
              (map (fun a => {| graded_row := a; is_auto_graded := true;
                                points_awarded := 0 |}) answers)).
Proof.
  intros Hall. unfold gradeSession.
  assert (Hmap : mapC gradeAnswer answers
                 = Normal (map (fun a => {| graded_row := a; is_auto_graded := true;
                                            points_awarded := 0 |}) answers)).
  { apply mapC_Normal_iff.
    induction Hall as [|a answers Ha _ IH]; simpl; constructor; [|exact IH].
    apply gradeAnswer_Normal_iff. simpl. split; [|done].
    by apply calculatePoints_without_relations. }
  by rewrite Hmap.
Qed.

Lemma gradeSession_without_relations_witness :
  gradeSession
    [ {| answer_text := None; selected_options := Some ["A"]; matching_answers := None;
         question := Some {| question_type := "multiple_choice"; points := Some 5%Z;
                             options := None; matching_pairs := None;
                             short_answer_keys := None |} |} ]
    None
  = Normal (SessionData
      [ {| graded_row :=
             {| answer_text := None; selected_options := Some ["A"]; matching_answers := None;
                question := Some {| question_type := "multiple_choice"; points := Some 5%Z;
                                    options := None; matching_pairs := None;
                                    short_answer_keys := None |} |};
           is_auto_graded := true; points_awarded := 0 |} ]).
Proof.
  apply (gradeSession_without_relations
           [ {| answer_text := None; selected_options := Some ["A"]; matching_answers := None;
                question := Some {| question_type := "multiple_choice"; points := Some 5%Z;
                                    options := None; matching_pairs := None;
                                    short_answer_keys := None |} |} ]).
  constructor; [|constructor]. intros q [= <-]. repeat split.
Defined.

(** ** The short-answer scorer *)

(** Over keys that all carry a text the loop has two outcomes. *)
Lemma shortAnswerLoop_cases (student : string) (q : Question) (keys : list ShortAnswerKey) :
  keys_have_text keys ->
  (Exists (key_matches student) keys
   /\ shortAnswerLoop student q keys = Normal (inject_Z (points_or_1 q)))
  \/ (~ Exists (key_matches student) keys
      /\ shortAnswerLoop student q keys = Normal 0%Q).
Proof.
  induction 1 as [|k keys [raw Hraw] _ IH].
  - right. split; [by intros H%Exists_nil | reflexivity].
  - rewrite (shortAnswerLoop_unfold _ _ _ _ raw Hraw).
    case_decide as Hd.
    + left. split; [|reflexivity]. left. by exists raw.
    + destruct IH as [[Hex Hres] | [Hnex Hres]].
      * left. split; [by right | exact Hres].
      * right. split; [|exact Hres].
        intros [(raw' & Hraw' & Hst) | Hex]%Exists_cons; [congruence | contradiction].
Qed.

Lemma inject_Z_points_nonzero (q : Question) :
  inject_Z (points_or_1 q) <> 0%Q.
Proof.
  intros [= Hz]. by apply (points_or_1_nonzero q).
Qed.

(** X4.  When every answer key carries a text, the short-answer scorer
    has exactly two outcomes: the full [points || 1] when the normalized
    student text equals the lower-cased text of at least one key, and 0
    when it equals none.  There is no partial credit. *)
Theorem gradeShortAnswer_full_iff (a : Answer) (q : Question) :
  keys_have_text (correctAnswers q) ->
  (gradeShortAnswer a q = Normal (inject_Z (points_or_1 q))
   <-> Exists (key_matches (studentAnswer a)) (correctAnswers q))
  /\ (gradeShortAnswer a q = Normal 0%Q
      <-> ~ Exists (key_matches (studentAnswer a)) (correctAnswers q)).
Proof.
  intros Hkeys. unfold gradeShortAnswer.
  pose proof (inject_Z_points_nonzero q) as Hnz.
  destruct (shortAnswerLoop_cases (studentAnswer a) q _ Hkeys)
    as [[Hex Hres] | [Hnex Hres]]; rewrite Hres.
  - split; split; try done.
    intros [= Hz]. by rewrite Hz in Hnz.
  - split; split; try done.
    intros [= Hz]. by rewrite <- Hz in Hnz.
Qed.

Lemma gradeShortAnswer_full_iff_witness :
  gradeShortAnswer
    (Fixtures.writing " PARIS " (Fixtures.shortAnswer (Some 5%Z) [Fixtures.paris false]))
    (Fixtures.shortAnswer (Some 5%Z) [Fixtures.paris false])
  = Normal 5%Q.
Proof.
  apply (proj1 (gradeShortAnswer_full_iff
                  (Fixtures.writing " PARIS "
                     (Fixtures.shortAnswer (Some 5%Z) [Fixtures.paris false]))
                  (Fixtures.shortAnswer (Some 5%Z) [Fixtures.paris false])
                  ltac:(repeat constructor; by eexists))).
  left. by exists "Paris".
Defined.



Lemma Exists_key_matches_perm (student : string) (keys keys' : list ShortAnswerKey) :
  keys' ≡ₚ keys ->
  Exists (key_matches student) keys' <-> Exists (key_matches student) keys.
Proof. intros Hperm. by rewrite Hperm. Qed.

(** X6.  When every answer key carries a text, the order of the keys has
    no effect on the short-answer score: the first match wins, and every
    match is worth the same. *)
Theorem gradeShortAnswer_key_order (a : Answer) (q q' : Question) :
  keys_have_text (correctAnswers q) ->
  points q' = points q ->
  correctAnswers q' ≡ₚ correctAnswers q ->
  gradeShortAnswer a q' = gradeShortAnswer a q.
Proof.
  intros Hkeys Hp Hperm. unfold gradeShortAnswer.
  assert (Hkeys' : keys_have_text (correctAnswers q'))
    by (unfold keys_have_text; by rewrite Hperm).
  assert (Hp1 : points_or_1 q' = points_or_1 q)
    by (unfold points_or_1; by rewrite Hp).
  pose proof (Exists_key_matches_perm (studentAnswer a) _ _ Hperm) as Hex.
  destruct (shortAnswerLoop_cases (studentAnswer a) q _ Hkeys) as [[H1 ->] | [H1 ->]];
    destruct (shortAnswerLoop_cases (studentAnswer a) q' _ Hkeys') as [[H2 ->] | [H2 ->]];
    rewrite ?Hp1; try reflexivity; tauto.
Qed.

Lemma gradeShortAnswer_key_order_witness :
  gradeShortAnswer
    (Fixtures.writing "paris" (Fixtures.shortAnswer (Some 5%Z) [Fixtures.paris false]))
    (Fixtures.shortAnswer (Some 5%Z)
       [ {| correct_answer := Some "Lutetia"; is_case_sensitive := None |}; Fixtures.paris false ])
  = gradeShortAnswer
      (Fixtures.writing "paris" (Fixtures.shortAnswer (Some 5%Z) [Fixtures.paris false]))
      (Fixtures.shortAnswer (Some 5%Z)
         [ Fixtures.paris false; {| correct_answer := Some "Lutetia"; is_case_sensitive := None |} ]).
Proof.
  apply gradeShortAnswer_key_order.
  - repeat constructor; by eexists.
  - reflexivity.
  - apply perm_swap.
Defined.

(** ** Normalization of the student's text *)

Lemma isWhiteSpace_lowerChar (c : ascii) :
  JsString.isWhiteSpace (JsString.lowerChar c) = JsString.isWhiteSpace c.
Proof. destruct c as [[] [] [] [] [] [] [] []]; reflexivity. Qed.

Lemma trimStart_toLowerCase (s : string) :
  JsString.trimStart (JsString.toLowerCase s) = JsString.toLowerCase (JsString.trimStart s).
Proof.
  induction s as [|c s IH]; simpl; [reflexivity|].
  rewrite isWhiteSpace_lowerChar. by destruct (JsString.isWhiteSpace c).
Qed.

Lemma trimEnd_toLowerCase (s : string) :
  JsString.trimEnd (JsString.toLowerCase s) = JsString.toLowerCase (JsString.trimEnd s).
Proof.
  induction s as [|c s IH]; simpl; [reflexivity|].
  rewrite IH, isWhiteSpace_lowerChar.
  destruct (JsString.trimEnd s); simpl; [|reflexivity].
  by destruct (JsString.isWhiteSpace c).
Qed.

Lemma trim_toLowerCase (s : string) :
  JsString.trim (JsString.toLowerCase s) = JsString.toLowerCase (JsString.trim s).
Proof. unfold JsString.trim. by rewrite trimStart_toLowerCase, trimEnd_toLowerCase. Qed.

Lemma trimStart_padding (ws s : string) :
  allWhiteSpace ws = true -> JsString.trimStart (ws ++ s) = JsString.trimStart s.
Proof.
  induction ws as [|c ws IH]; simpl; [reflexivity|].
  intros [Hc Hws]%andb_true_iff. rewrite Hc. by apply IH.
Qed.

Lemma trimStart_whitespace (ws : string) :
  allWhiteSpace ws = true -> JsString.trimStart ws = "".
Proof.
  induction ws as [|c ws IH]; simpl; [reflexivity|].
  intros [Hc Hws]%andb_true_iff. by rewrite Hc, (IH Hws).
Qed.

Lemma trimEnd_whitespace (ws : string) :
  allWhiteSpace ws = true -> JsString.trimEnd ws = "".
Proof.
  induction ws as [|c ws IH]; simpl; [reflexivity|].
  intros [Hc Hws]%andb_true_iff. by rewrite (IH Hws), Hc.
Qed.

Lemma trimEnd_padding (s ws : string) :
  allWhiteSpace ws = true -> JsString.trimEnd (s ++ ws) = JsString.trimEnd s.
Proof.
  intros Hws. induction s as [|c s IH]; simpl.
  - by apply trimEnd_whitespace.
  - by rewrite IH.
Qed.

Lemma trimStart_app (s ws : string) :
  JsString.trimStart (s ++ ws) = (JsString.trimStart s ++ ws)%string
  \/ (JsString.trimStart s = "" /\ JsString.trimStart (s ++ ws) = JsString.trimStart ws).
Proof.
  induction s as [|c s IH]; simpl.
  - by right.
  - destruct (JsString.isWhiteSpace c); [exact IH | by left].
Qed.

Lemma trim_padding (ws1 s ws2 : string) :
  allWhiteSpace ws1 = true -> allWhiteSpace ws2 = true ->
  JsString.trim (ws1 ++ s ++ ws2) = JsString.trim s.
Proof.
  intros H1 H2. unfold JsString.trim. rewrite (trimStart_padding _ _ H1).
  destruct (trimStart_app s ws2) as [-> | [Hs ->]].
  - by apply trimEnd_padding.
  - by rewrite Hs, (trimStart_whitespace _ H2).
Qed.

(** X7.  The short-answer score does not depend on white space around the
    student's text nor on its letter case: a text that equals another one
    padded with white space, up to letter case, is scored alike on every
    question.  White space inside the text is kept. *)
Theorem gradeShortAnswer_padding_and_case (a a' : Answer) (q : Question)
    (t t' ws1 ws2 : string) :
  answer_text a = Some t ->
  answer_text a' = Some t' ->
  allWhiteSpace ws1 = true ->
  allWhiteSpace ws2 = true ->
  JsString.toLowerCase t' = JsString.toLowerCase (ws1 ++ t ++ ws2) ->
  studentAnswer a' = studentAnswer a
  /\ gradeShortAnswer a' q = gradeShortAnswer a q.
Proof.
  intros Ht Ht' H1 H2 Hcase.
  assert (Hst : studentAnswer a' = studentAnswer a).
  { unfold studentAnswer. rewrite Ht, Ht'. simpl.
    rewrite <- !trim_toLowerCase, Hcase, !trim_toLowerCase.
    by rewrite (trim_padding _ _ _ H1 H2). }
  split; [exact Hst|]. unfold gradeShortAnswer. by rewrite Hst.
Qed.

Lemma gradeShortAnswer_padding_and_case_witness :
  gradeShortAnswer
    (Fixtures.writing "  PaRiS " (Fixtures.shortAnswer (Some 5%Z) [Fixtures.paris false]))
    (Fixtures.shortAnswer (Some 5%Z) [Fixtures.paris false])
  = gradeShortAnswer
      (Fixtures.writing "paris" (Fixtures.shortAnswer (Some 5%Z) [Fixtures.paris false]))
      (Fixtures.shortAnswer (Some 5%Z) [Fixtures.paris false]).
Proof.
  apply (gradeShortAnswer_padding_and_case
           (Fixtures.writing "paris" (Fixtures.shortAnswer (Some 5%Z) [Fixtures.paris false]))
           (Fixtures.writing "  PaRiS " (Fixtures.shortAnswer (Some 5%Z) [Fixtures.paris false]))
           (Fixtures.shortAnswer (Some 5%Z) [Fixtures.paris false])
           "paris" "  PaRiS " "  " " "); reflexivity.
Defined.

(** White space inside the text is significant. *)
Example inner_white_space_kept :
  calculatePoints
    (Fixtures.writing "new  york"
       (Fixtures.shortAnswer (Some 5%Z)
          [ {| correct_answer := Some "New York"; is_case_sensitive := None |} ]))
  = Normal 0%Q.
Proof. reflexivity. Qed.

(** ** Arithmetic of the partial-credit scores *)

Lemma inject_Z_pos (n : Z) : (0 < n)%Z -> (0 < inject_Z n)%Q.
Proof. intros Hn. change 0%Q with (inject_Z 0). by rewrite <- Zlt_Qlt. Qed.

Lemma inject_Z_eq_iff (x y : Z) : (inject_Z x == inject_Z y)%Q <-> x = y.
Proof.
  unfold Qeq, inject_Z. simpl. rewrite !Z.mul_1_r. reflexivity.
Qed.

Lemma Qdiv_eq_iff (x n k : Z) :
  (0 < n)%Z ->
  (inject_Z x / inject_Z n == inject_Z k)%Q <-> x = (k * n)%Z.
Proof.
  intros Hn. pose proof (inject_Z_pos n Hn) as Hpos.
  assert (Hnz : ~ (inject_Z n == 0)%Q) by (intros H; rewrite H in Hpos; by apply Qlt_irrefl in Hpos).
  rewrite <- inject_Z_eq_iff, inject_Z_mult. split.
  - intros H. rewrite <- H. rewrite Qmult_comm. symmetry. by apply Qmult_div_r.
  - intros H. rewrite H. by apply Qdiv_mult_l.
Qed.

Lemma Qdiv_le_0_iff (x n : Z) :
  (0 < n)%Z ->
  (inject_Z x / inject_Z n <= 0)%Q <-> (x <= 0)%Z.
Proof.
  intros Hn. pose proof (inject_Z_pos n Hn) as Hpos. split.
  - intros H. apply Z.le_ngt. intros Hx.
    assert (0 < inject_Z x / inject_Z n)%Q.
    { apply Qlt_shift_div_l; [exact Hpos|]. rewrite Qmult_0_l. by apply inject_Z_pos. }
    lra.
  - intros Hx. apply Qle_shift_div_r; [exact Hpos|]. rewrite Qmult_0_l.
    change 0%Q with (inject_Z 0). by rewrite <- Zle_Qle.
Qed.

Lemma Qdiv_le_mono (x y n : Z) :
  (0 < n)%Z -> (x <= y)%Z ->
  (inject_Z x / inject_Z n <= inject_Z y / inject_Z n)%Q.
Proof.
  intros Hn Hxy. pose proof (inject_Z_pos n Hn) as Hpos.
  apply Qle_shift_div_l; [exact Hpos|].
  unfold Qdiv. rewrite <- Qmult_assoc, (Qmult_comm (/ inject_Z n)), Qmult_inv_r, Qmult_1_r.
  - by rewrite <- Zle_Qle.
  - intros H. rewrite H in Hpos. by apply Qlt_irrefl in Hpos.
Qed.

Lemma scaled_eq_0_iff (f : Q) (p : Z) :
  p <> 0%Z -> (f * inject_Z p == 0)%Q <-> (f == 0)%Q.
Proof.
  intros Hp. split.
  - intros H. apply Qmult_integral in H as [H|H]; [exact H|].
    exfalso. apply Hp. by apply inject_Z_eq_iff.
  - intros ->. apply Qmult_0_l.
Qed.

Lemma scaled_eq_full_iff (f : Q) (p : Z) :
  p <> 0%Z -> (f * inject_Z p == inject_Z p)%Q <-> (f == 1)%Q.
Proof.
  intros Hp.
  assert (Hnz : ~ (inject_Z p == 0)%Q) by (intros H; apply Hp; by apply inject_Z_eq_iff).
  split.
  - intros H. rewrite <- (Qdiv_mult_l f (inject_Z p) Hnz), H.
    unfold Qdiv. by apply Qmult_inv_r.
  - intros ->. apply Qmult_1_l.
Qed.

Lemma Qmax_0_eq_0_iff (y : Q) : (Qmax 0 y == 0)%Q <-> (y <= 0)%Q.
Proof. apply Q.max_l_iff. Qed.

Lemma Qmax_0_eq_1_iff (y : Q) : (Qmax 0 y == 1)%Q <-> (y == 1)%Q.
Proof.
  destruct (Q.max_spec 0 y) as [[Hlt Hmax] | [Hle Hmax]]; rewrite Hmax.
  - reflexivity.
  - split; intros H; [discriminate | rewrite H in Hle; lra].
Qed.

Lemma length_filter_all {A} (P : A -> Prop) `{forall x, Decision (P x)} (l : list A) :
  length (filter P l) = length l <-> Forall P l.
Proof.
  induction l as [|x l IH].
  - split; [constructor | reflexivity].
  - rewrite filter_cons, Forall_cons. case_decide as Hx; simpl.
    + rewrite <- IH. split; [intros [= Hl]; by split | intros [_ Hl]; by f_equal].
    + pose proof (length_filter P l). split; [lia | tauto].
Qed.


(** ** The multiple-select scorer *)

Lemma gradeMultipleSelect_unfold (a : Answer) (q : Question) :
  correctIds q <> [] ->
  gradeMultipleSelect a q
  = (Qmax 0 (inject_Z (correctSelected a q - incorrectSelected a q)
             / inject_Z (Z.of_nat (length (correctIds q))))
     * inject_Z (points_or_1 q))%Q.
Proof.
  intros Hne. unfold gradeMultipleSelect.
  rewrite <- length_correctIds.
  destruct (Nat.eqb_spec (length (correctIds q)) 0) as [Hz|_]; [|reflexivity].
  by destruct (correctIds q).
Qed.

Lemma length_correctIds_pos (q : Question) :
  correctIds q <> [] -> (0 < Z.of_nat (length (correctIds q)))%Z.
Proof. destruct (correctIds q); [done | simpl; lia]. Qed.

(** The score is 0 exactly when the difference of the two counters is
    not positive. *)
Lemma gradeMultipleSelect_zero_counters (a : Answer) (q : Question) :
  correctIds q <> [] ->
  (gradeMultipleSelect a q == 0)%Q
  <-> (correctSelected a q <= incorrectSelected a q)%Z.
Proof.
  intros Hne. rewrite (gradeMultipleSelect_unfold a q Hne).
  rewrite (scaled_eq_0_iff _ _ (points_or_1_nonzero q)).
  rewrite Qmax_0_eq_0_iff, (Qdiv_le_0_iff _ _ (length_correctIds_pos q Hne)).
  lia.
Qed.

Lemma length_filter_complement {A} (P : A -> Prop) `{forall x, Decision (P x)} (l : list A) :
  length (filter P l) + length (filter (fun x => ~ P x) l) = length l.
Proof.
  rewrite <- length_app. apply Permutation_length, filter_app_complement.
Qed.

(** X8.  For an answer selecting the ids [sel] on a question whose options
    [opts] include at least one flagged correct, the multiple-select score
    is 0 exactly when [sel] holds at least as many ids that are not ids of
    correct options as ids that are (an id counting as often as it is
    listed): in particular for an empty selection, and never for a
    selection of correct ids only. *)
Theorem gradeMultipleSelect_zero_iff (a : Answer) (q : Question)
    (sel : list string) (opts : list QuestionOption) :
  selected_options a = Some sel ->
  options q = Some opts ->
  map id (filter (fun opt => truthy (is_correct opt)) opts) <> [] ->
  (gradeMultipleSelect a q == 0)%Q
  <-> length (filter (fun i => i ∈ map id (filter (fun opt => truthy (is_correct opt)) opts))
                     sel)
      <= length (filter (fun i => i ∉ map id (filter (fun opt => truthy (is_correct opt)) opts))
                        sel).
Proof.
  intros Hsel Hopts Hne.
  assert (Hids : correctIds q = map id (filter (fun opt => truthy (is_correct opt)) opts))
    by (unfold correctIds, correctOptions; by rewrite Hopts).
  assert (Hsids : selectedIds a = sel) by (unfold selectedIds; by rewrite Hsel).
  rewrite <- Hids in *.
  rewrite (gradeMultipleSelect_zero_counters a q Hne).
  unfold incorrectSelected, correctSelected. rewrite Hsids.
  pose proof (length_filter_complement (fun i => i ∈ correctIds q) sel) as Hsplit.
  lia.
Qed.

Lemma gradeMultipleSelect_zero_iff_witness :
  (gradeMultipleSelect (Fixtures.selecting ["A"; "B"; "C"; "D"] (Fixtures.select (Some 4%Z)))
                       (Fixtures.select (Some 4%Z)) == 0)%Q
  /\ ~ (gradeMultipleSelect (Fixtures.selecting ["A"; "B"] (Fixtures.select (Some 4%Z)))
                            (Fixtures.select (Some 4%Z)) == 0)%Q.
Proof.
  split.
  - apply (gradeMultipleSelect_zero_iff
             (Fixtures.selecting ["A"; "B"; "C"; "D"] (Fixtures.select (Some 4%Z)))
             (Fixtures.select (Some 4%Z)) ["A"; "B"; "C"; "D"]
             [Fixtures.opt "A" true; Fixtures.opt "B" true;
              Fixtures.opt "C" false; Fixtures.opt "D" false]);
      [reflexivity | reflexivity | discriminate |].
    vm_compute. lia.
  - intros Hzero.
    apply (gradeMultipleSelect_zero_iff
             (Fixtures.selecting ["A"; "B"] (Fixtures.select (Some 4%Z)))
             (Fixtures.select (Some 4%Z)) ["A"; "B"]
             [Fixtures.opt "A" true; Fixtures.opt "B" true;
              Fixtures.opt "C" false; Fixtures.opt "D" false]) in Hzero;
      [| reflexivity | reflexivity | discriminate].
    vm_compute in Hzero. lia.
Defined.

(** X9.  With pairwise distinct correct ids, at least one of them, and
    pairwise distinct selected ids, the multiple-select score is the full
    [points || 1] exactly when the selected ids are the correct ids, in
    any order. *)
Theorem gradeMultipleSelect_full_iff (a : Answer) (q : Question) :
  correctIds q <> [] ->
  NoDup (correctIds q) ->
  NoDup (selectedIds a) ->
  (gradeMultipleSelect a q == inject_Z (points_or_1 q))%Q
  <-> selectedIds a ≡ₚ correctIds q.
Proof.
  intros Hne Hndc Hnds. rewrite (gradeMultipleSelect_unfold a q Hne).
  rewrite (scaled_eq_full_iff _ _ (points_or_1_nonzero q)).
  rewrite Qmax_0_eq_1_iff.
  change 1%Q with (inject_Z 1).
  rewrite (Qdiv_eq_iff _ _ 1 (length_correctIds_pos q Hne)).
  unfold incorrectSelected.
  pose proof (correctSelected_le_correct a q Hnds) as Hc.
  pose proof (correctSelected_le_selected a q) as Hs.
  split.
  - intros Hx.
    assert (Hall : correctSelected a q = Z.of_nat (length (selectedIds a))) by lia.
    assert (Hlen : length (selectedIds a) = length (correctIds q)) by lia.
    unfold correctSelected in Hall. apply Nat2Z.inj in Hall.
    apply length_filter_all in Hall.
    apply submseteq_length_Permutation; [|lia].
    apply NoDup_submseteq; [exact Hnds|].
    intros x Hx'. by apply (proj1 (Forall_forall _ _) Hall).
  - intros Hperm.
    assert (Hall : correctSelected a q = Z.of_nat (length (selectedIds a))).
    { unfold correctSelected. f_equal. apply length_filter_all.
      apply Forall_forall. intros x Hx'. by rewrite <- Hperm. }
    rewrite Hall, (Permutation_length Hperm). lia.
Qed.

Lemma gradeMultipleSelect_full_iff_witness :
  (gradeMultipleSelect (Fixtures.selecting ["B"; "A"] (Fixtures.select (Some 4%Z)))
                       (Fixtures.select (Some 4%Z)) == 4)%Q.
Proof.
  apply (gradeMultipleSelect_full_iff
           (Fixtures.selecting ["B"; "A"] (Fixtures.select (Some 4%Z)))
           (Fixtures.select (Some 4%Z))).
  - discriminate.
  - apply (bool_decide_unpack _). vm_compute. exact I.
  - apply (bool_decide_unpack _). vm_compute. exact I.
  - apply perm_swap.
Defined.

(** X10.  On a question whose [points] is not negative, selecting one more
    id outside the correct ids never raises the multiple-select score, and
    selecting one more id among the correct ids never lowers it. *)
Theorem gradeMultipleSelect_one_more (a a' : Answer) (q : Question) (i : string) :
  (forall p, points q = Some p -> (0 <= p)%Z) ->
  selectedIds a' = i :: selectedIds a ->
  (i ∉ correctIds q -> (gradeMultipleSelect a' q <= gradeMultipleSelect a q)%Q)
  /\ (i ∈ correctIds q -> (gradeMultipleSelect a q <= gradeMultipleSelect a' q)%Q).
Proof.
  intros Hnn Hsel.
  pose proof (maxQ_ge_1 q Hnn) as HP.
  destruct (decide (correctIds q = [])) as [Hnil|Hne].
  { unfold gradeMultipleSelect. rewrite <- length_correctIds, Hnil. simpl.
    split; intros _; lra. }
  rewrite !(gradeMultipleSelect_unfold _ q Hne).
  pose proof (length_correctIds_pos q Hne) as Hn.
  unfold incorrectSelected, correctSelected. rewrite Hsel, filter_cons.
  split; intros Hi; [rewrite decide_False by done | rewrite decide_True by done];
    simpl length.
  - assert (Hle : (Qmax 0 (inject_Z
              (Z.of_nat (length (filter (fun i0 => i0 ∈ correctIds q) (selectedIds a)))
               - (Z.of_nat (S (length (selectedIds a)))
                  - Z.of_nat (length (filter (fun i0 => i0 ∈ correctIds q) (selectedIds a)))))
              / inject_Z (Z.of_nat (length (correctIds q))))
            <= Qmax 0 (inject_Z
              (Z.of_nat (length (filter (fun i0 => i0 ∈ correctIds q) (selectedIds a)))
               - (Z.of_nat (length (selectedIds a))
                  - Z.of_nat (length (filter (fun i0 => i0 ∈ correctIds q) (selectedIds a)))))
              / inject_Z (Z.of_nat (length (correctIds q)))))%Q).
    { apply Q.max_le_compat_l, Qdiv_le_mono; [exact Hn | lia]. }
    apply Qmult_le_compat_r; [exact Hle | lra].
  - assert (Hle : (Qmax 0 (inject_Z
              (Z.of_nat (length (filter (fun i0 => i0 ∈ correctIds q) (selectedIds a)))
               - (Z.of_nat (length (selectedIds a))
                  - Z.of_nat (length (filter (fun i0 => i0 ∈ correctIds q) (selectedIds a)))))
              / inject_Z (Z.of_nat (length (correctIds q))))
            <= Qmax 0 (inject_Z
              (Z.of_nat (S (length (filter (fun i0 => i0 ∈ correctIds q) (selectedIds a))))
               - (Z.of_nat (S (length (selectedIds a)))
                  - Z.of_nat (S (length (filter (fun i0 => i0 ∈ correctIds q) (selectedIds a))))))
              / inject_Z (Z.of_nat (length (correctIds q)))))%Q).
    { apply Q.max_le_compat_l, Qdiv_le_mono; [exact Hn | lia]. }
    apply Qmult_le_compat_r; [exact Hle | lra].
Qed.

Lemma gradeMultipleSelect_one_more_witness :
  (gradeMultipleSelect (Fixtures.selecting ["C"; "A"; "B"] (Fixtures.select (Some 4%Z)))
                       (Fixtures.select (Some 4%Z))
   <= gradeMultipleSelect (Fixtures.selecting ["A"; "B"] (Fixtures.select (Some 4%Z)))
                          (Fixtures.select (Some 4%Z)))%Q.
Proof.
  apply (proj1 (gradeMultipleSelect_one_more
                  (Fixtures.selecting ["A"; "B"] (Fixtures.select (Some 4%Z)))
                  (Fixtures.selecting ["C"; "A"; "B"] (Fixtures.select (Some 4%Z)))
                  (Fixtures.select (Some 4%Z)) "C"
                  ltac:(intros p [= <-]; lia) eq_refl)).
  change (correctIds (Fixtures.select (Some 4%Z))) with ["A"; "B"].
  rewrite !not_elem_of_cons. repeat split; [discriminate.. | apply not_elem_of_nil].
Defined.

Lemma correctOptions_default (q : Question) :
  correctOptions q
  = filter (fun opt => truthy (is_correct opt)) (default [] (options q)).
Proof. unfold correctOptions. by destruct (options q). Qed.

(** X11.  The multiple-select score reads the selected ids and the options
    as collections: listing either in another order leaves it unchanged. *)
Theorem gradeMultipleSelect_order (a a' : Answer) (q q' : Question) :
  selectedIds a' ≡ₚ selectedIds a ->
  default [] (options q') ≡ₚ default [] (options q) ->
  points q' = points q ->
  gradeMultipleSelect a' q' = gradeMultipleSelect a q.
Proof.
  intros Hsel Hopts Hp.
  assert (Hco : correctOptions q' ≡ₚ correctOptions q).
  { rewrite !correctOptions_default. by rewrite Hopts. }
  assert (Hci : correctIds q' ≡ₚ correctIds q) by (unfold correctIds; by rewrite Hco).
  assert (Hcs : correctSelected a' q' = correctSelected a q).
  { unfold correctSelected. f_equal.
    rewrite (list_filter_iff (fun i => i ∈ correctIds q') (fun i => i ∈ correctIds q))
      by (intros x; by rewrite Hci).
    by rewrite Hsel. }
  unfold gradeMultipleSelect, incorrectSelected, points_or_1.
  by rewrite Hcs, Hp, (Permutation_length Hsel), (Permutation_length Hco),
    (Permutation_length Hci).
Qed.

Lemma gradeMultipleSelect_order_witness :
  gradeMultipleSelect (Fixtures.selecting ["C"; "A"] (Fixtures.select (Some 4%Z)))
                      (Fixtures.select (Some 4%Z))
  = gradeMultipleSelect (Fixtures.selecting ["A"; "C"] (Fixtures.select (Some 4%Z)))
                        (Fixtures.select (Some 4%Z)).
Proof.
  apply gradeMultipleSelect_order; [apply perm_swap | reflexivity | reflexivity].
Defined.

(** ** The matching scorer *)




(** X13.  The matching score reads the stored pairs as a collection:
    listing them in another order leaves it unchanged. *)
Theorem gradeMatching_order (a : Answer) (q q' : Question) :
  correctPairs q' ≡ₚ correctPairs q ->
  points q' = points q ->
  gradeMatching a q' = gradeMatching a q.
Proof.
  intros Hperm Hp. unfold gradeMatching, points_or_1.
  rewrite !correctCount_satisfiedPairs. unfold satisfiedPairs.
  by rewrite Hp, (Permutation_length Hperm), Hperm.
Qed.

Lemma gradeMatching_order_witness :
  gradeMatching (Fixtures.mapping {[ "cat" := "kucing" ]} (Fixtures.matching (Some 10%Z)))
                {| question_type := "matching"; points := Some 10%Z; options := None;
                   matching_pairs := Some [ {| left_item := "dog"; right_item := "anjing" |};
                                            {| left_item := "cat"; right_item := "kucing" |} ];
                   short_answer_keys := None |}
  = gradeMatching (Fixtures.mapping {[ "cat" := "kucing" ]} (Fixtures.matching (Some 10%Z)))
                  (Fixtures.matching (Some 10%Z)).
Proof.
  apply gradeMatching_order; [apply perm_swap | reflexivity].
Defined.

(** ** The connections of the matching component *)

Lemma prefix_left_not_right (s : string) :
  String.prefix "left" s = true -> String.prefix "right" s = false.
Proof.
  destruct s as [|c s]; [discriminate|].
  change (String.prefix "left" (String c s))
    with (if Ascii.ascii_dec "l" c then String.prefix "eft" s else false).
  change (String.prefix "right" (String c s))
    with (if Ascii.ascii_dec "r" c then String.prefix "ight" s else false).
  destruct (Ascii.ascii_dec "l" c) as [<-|]; [|discriminate].
  intros _. destruct (Ascii.ascii_dec "r" "l") as [Heq|]; [discriminate Heq | reflexivity].
Qed.

Lemma prefix_right_not_left (s : string) :
  String.prefix "right" s = true -> String.prefix "left" s = false.
Proof.
  intros Hr. destruct (String.prefix "left" s) eqn:Hl; [|reflexivity].
  apply prefix_left_not_right in Hl. congruence.
Qed.

Lemma across_distinct (activeId overId : string) :
  MatchingComponent.across activeId overId ->
  activeId <> overId /\ overId <> "" /\ activeId <> "".
Proof.
  intros [[Ha Ho] | [Ha Ho]]; (split; [|split]); try (intros ->; discriminate).
  - intros ->. apply prefix_left_not_right in Ha. congruence.
  - intros ->. apply prefix_right_not_left in Ha. congruence.
Qed.

(** The optional [delete] of the connection arm is overwritten by the
    assignment that follows it. *)
Lemma connect_eq (activeId overId : string) (m : gmap string string) :
  MatchingComponent.connect activeId overId m
  = <[overId := activeId]>
      (<[activeId := overId]> (filter (fun kv => kv.2 <> activeId) m)).
Proof.
  unfold MatchingComponent.connect. cbv zeta.
  destruct (MatchingComponent.truthyString _); [|reflexivity].
  by rewrite insert_delete_eq.
Qed.

Lemma connect_lookup_other (activeId overId k : string) (m : gmap string string) :
  k <> activeId -> k <> overId ->
  MatchingComponent.connect activeId overId m !! k
  = match m !! k with
    | Some v => if decide (v = activeId) then None else Some v
    | None => None
    end.
Proof.
  intros Hka Hko. rewrite connect_eq.
  rewrite lookup_insert_ne by done. rewrite lookup_insert_ne by done.
  destruct (m !! k) as [v|] eqn:Hk.
  - case_decide as Hv.
    + apply map_lookup_filter_None. right. intros v' Hv'. simpl. congruence.
    + apply map_lookup_filter_Some. by split.
  - apply map_lookup_filter_None. by left.
Qed.

Lemma handleDragEnd_across (arrayMove : list MatchingComponent.MatchingItem -> Z -> Z ->
                                        list MatchingComponent.MatchingItem)
    (activeId overId : string) (st : MatchingComponent.State) :
  MatchingComponent.across activeId overId ->
  MatchingComponent.handleDragEnd arrayMove false
    {| MatchingComponent.active := activeId; MatchingComponent.over := Some overId |} st
  = {| MatchingComponent.next :=
         {| MatchingComponent.leftSide := MatchingComponent.leftSide st;
            MatchingComponent.rightSide := MatchingComponent.rightSide st;
            MatchingComponent.connections :=
              MatchingComponent.connect activeId overId (MatchingComponent.connections st);
            MatchingComponent.activeId := None |};
       MatchingComponent.matched :=
         Some (MatchingComponent.connect activeId overId (MatchingComponent.connections st)) |}.
Proof.
  intros Hacross. unfold MatchingComponent.handleDragEnd. simpl.
  destruct Hacross as [[Ha Ho] | [Ha Ho]].
  - rewrite Ha, Ho, (prefix_left_not_right _ Ha), (prefix_right_not_left _ Ho). reflexivity.
  - rewrite Ha, Ho, (prefix_right_not_left _ Ha), (prefix_left_not_right _ Ho). reflexivity.
Qed.

(** X14.  A drop from one column onto an item of the other column, outside
    read-only mode, stores the pair both ways, reports the new connections
    to [onMatch], and leaves no other key pointing at the dragged item;
    an entry under any other key survives exactly when it does not point
    at the dragged item. *)
Theorem handleDragEnd_connects
    (arrayMove : list MatchingComponent.MatchingItem -> Z -> Z ->
                 list MatchingComponent.MatchingItem)
    (activeId overId : string) (st : MatchingComponent.State) :
  MatchingComponent.across activeId overId ->
  exists c,
    MatchingComponent.connections
      (MatchingComponent.next
         (MatchingComponent.handleDragEnd arrayMove false
            {| MatchingComponent.active := activeId;
               MatchingComponent.over := Some overId |} st)) = c
    /\ MatchingComponent.matched
         (MatchingComponent.handleDragEnd arrayMove false
            {| MatchingComponent.active := activeId;
               MatchingComponent.over := Some overId |} st) = Some c
    /\ c !! activeId = Some overId
    /\ c !! overId = Some activeId
    /\ (forall k, k <> overId -> c !! k <> Some activeId)
    /\ (forall k v, k <> activeId -> k <> overId ->
          c !! k = Some v
          <-> MatchingComponent.connections st !! k = Some v /\ v <> activeId).
Proof.
  intros Hacross. rewrite (handleDragEnd_across _ _ _ _ Hacross). simpl.
  destruct (across_distinct _ _ Hacross) as (Hne & _ & _).
  eexists. split; [reflexivity|]. split; [reflexivity|].
  split; [|split; [|split]].
  - rewrite connect_eq, lookup_insert_ne by done. apply lookup_insert_eq.
  - rewrite connect_eq. apply lookup_insert_eq.
  - intros k Hko. destruct (decide (k = activeId)) as [->|Hka].
    + rewrite connect_eq, lookup_insert_ne by done. rewrite lookup_insert_eq. congruence.
    + rewrite (connect_lookup_other _ _ _ _ Hka Hko).
      destruct (_ !! k) as [v|]; [case_decide|]; congruence.
  - intros k v Hka Hko. rewrite (connect_lookup_other _ _ _ _ Hka Hko).
    destruct (_ !! k) as [v'|]; [case_decide as Hv|].
    + split; [discriminate | intros [[= <-] Hne']; contradiction].
    + split; [intros [= <-]; by split | by intros [Heq _]].
    + split; [discriminate | by intros [Heq _]].
Qed.

Lemma handleDragEnd_connects_witness :
  MatchingComponent.connections
    (MatchingComponent.next
       (MatchingComponent.handleDragEnd (fun l _ _ => l) false
          {| MatchingComponent.active := "left-0"; MatchingComponent.over := Some "right-1" |}
          {| MatchingComponent.leftSide := []; MatchingComponent.rightSide := [];
             MatchingComponent.connections := ∅; MatchingComponent.activeId := Some "left-0" |}))
  !! "left-0" = Some "right-1".
Proof.
  destruct (handleDragEnd_connects (fun l _ _ => l) "left-0" "right-1"
              {| MatchingComponent.leftSide := []; MatchingComponent.rightSide := [];
                 MatchingComponent.connections := ∅;
                 MatchingComponent.activeId := Some "left-0" |})
    as (c & Hc & _ & Hlookup & _).
  - left. split; reflexivity.
  - rewrite Hc. exact Hlookup.
Defined.

(** X15.  When the connections are stored both ways and the drop target
    is not connected yet, the connections after the drop are stored both
    ways again. *)
Theorem connect_free_target_symmetric (activeId overId : string) (m : gmap string string) :
  MatchingComponent.across activeId overId ->
  MatchingComponent.symmetric m ->
  m !! overId = None ->
  MatchingComponent.symmetric (MatchingComponent.connect activeId overId m).
Proof.
  intros Hacross Hsym Hfree k v Hkv.
  destruct (across_distinct _ _ Hacross) as (Hne & _ & _).
  assert (Hao : MatchingComponent.connect activeId overId m !! activeId = Some overId)
    by (rewrite connect_eq, lookup_insert_ne by done; apply lookup_insert_eq).
  assert (Hoa : MatchingComponent.connect activeId overId m !! overId = Some activeId)
    by (rewrite connect_eq; apply lookup_insert_eq).
  destruct (decide (k = overId)) as [->|Hko]; [congruence|].
  destruct (decide (k = activeId)) as [->|Hka]; [congruence|].
  rewrite (connect_lookup_other _ _ _ _ Hka Hko) in Hkv.
  destruct (m !! k) as [v'|] eqn:Hk; [|discriminate].
  case_decide as Hv; [discriminate|]. injection Hkv as <-.
  pose proof (Hsym _ _ Hk) as Hback.
  assert (Hvo : v' <> overId) by (intros ->; congruence).
  rewrite (connect_lookup_other _ _ _ _ Hv Hvo), Hback.
  by rewrite decide_False.
Qed.

Lemma connect_free_target_symmetric_witness :
  MatchingComponent.symmetric
    (MatchingComponent.connect "left-0" "right-1" {[ "left-1" := "right-0"; "right-0" := "left-1" ]}).
Proof.
  apply connect_free_target_symmetric.
  - left. split; reflexivity.
  - intros k v Hkv.
    destruct (decide (k = "left-1")) as [->|H1].
    + rewrite lookup_insert_eq in Hkv. injection Hkv as <-. reflexivity.
    + rewrite lookup_insert_ne in Hkv by done.
      destruct (decide (k = "right-0")) as [->|H2].
      * rewrite lookup_singleton_eq in Hkv. injection Hkv as <-. reflexivity.
      * rewrite lookup_singleton_ne in Hkv by done. discriminate.
  - reflexivity.
Defined.

(** X16.  When the connections are stored both ways and the drop target
    is already connected to another item [x], the drop rewrites the entry
    of the target but keeps the entry of [x]: [x] still points at the
    target, the target points at the dragged item, and the connections are
    no longer stored both ways. *)
Theorem connect_taken_target_stale (activeId overId x : string) (m : gmap string string) :
  MatchingComponent.across activeId overId ->
  MatchingComponent.symmetric m ->
  m !! overId = Some x ->
  x <> activeId -> x <> overId ->
  MatchingComponent.connect activeId overId m !! x = Some overId
  /\ MatchingComponent.connect activeId overId m !! overId = Some activeId
  /\ ~ MatchingComponent.symmetric (MatchingComponent.connect activeId overId m).
Proof.
  intros Hacross Hsym Hover Hxa Hxo.
  destruct (across_distinct _ _ Hacross) as (Hne & _ & _).
  assert (Hx : MatchingComponent.connect activeId overId m !! x = Some overId).
  { rewrite (connect_lookup_other _ _ _ _ Hxa Hxo), (Hsym _ _ Hover).
    rewrite decide_False; [reflexivity | congruence]. }
  assert (Hoa : MatchingComponent.connect activeId overId m !! overId = Some activeId)
    by (rewrite connect_eq; apply lookup_insert_eq).
  split; [exact Hx | split; [exact Hoa|]].
  intros Hsym'. specialize (Hsym' _ _ Hx). congruence.
Qed.

Lemma connect_taken_target_stale_witness :
  MatchingComponent.connect "left-0" "right-1" {[ "left-1" := "right-1"; "right-1" := "left-1" ]}
  !! "left-1" = Some "right-1".
Proof.
  apply (connect_taken_target_stale "left-0" "right-1" "left-1").
  - left. split; reflexivity.
  - intros k v Hkv.
    destruct (decide (k = "left-1")) as [->|H1].
    + rewrite lookup_insert_eq in Hkv. injection Hkv as <-. reflexivity.
    + rewrite lookup_insert_ne in Hkv by done.
      destruct (decide (k = "right-1")) as [->|H2].
      * rewrite lookup_singleton_eq in Hkv. injection Hkv as <-. reflexivity.
      * rewrite lookup_singleton_ne in Hkv by done. discriminate.
  - reflexivity.
  - discriminate.
  - discriminate.
Defined.

(** X17.  When the connections are stored both ways, removing the
    connection of a connected item, outside read-only mode, deletes the
    entries of the item and of its partner, keeps every other entry,
    reports the result to [onMatch], and leaves connections that are
    stored both ways. *)
Theorem handleRemoveConnection_removes_pair (itemId partner : string)
    (st : MatchingComponent.State) :
  MatchingComponent.symmetric (MatchingComponent.connections st) ->
  MatchingComponent.connections st !! itemId = Some partner ->
  partner <> "" ->
  exists c,
    MatchingComponent.connections
      (MatchingComponent.next (MatchingComponent.handleRemoveConnection false itemId st)) = c
    /\ MatchingComponent.matched (MatchingComponent.handleRemoveConnection false itemId st)
       = Some c
    /\ c !! itemId = None
    /\ c !! partner = None
    /\ (forall k, k <> itemId -> k <> partner ->
          c !! k = MatchingComponent.connections st !! k)
    /\ MatchingComponent.symmetric c.
Proof.
  intros Hsym Hitem Hne. unfold MatchingComponent.handleRemoveConnection. simpl.
  rewrite Hitem. destruct partner as [|ch r]; [done|]. simpl.
  set (m := MatchingComponent.connections st) in *.
  eexists. split; [reflexivity|]. split; [reflexivity|].
  assert (Hother : forall k, k <> itemId -> k <> String ch r ->
            delete (String ch r) (delete itemId m) !! k = m !! k).
  { intros k Hk1 Hk2. by rewrite !lookup_delete_ne. }
  split; [|split; [|split]].
  - destruct (decide (String ch r = itemId)) as [<-|Hd].
    + apply lookup_delete_eq.
    + rewrite lookup_delete_ne by done. apply lookup_delete_eq.
  - apply lookup_delete_eq.
  - exact Hother.
  - intros k v Hkv.
    assert (Hk1 : k <> String ch r) by (intros ->; by rewrite lookup_delete_eq in Hkv).
    assert (Hk2 : k <> itemId).
    { intros ->. rewrite lookup_delete_ne, lookup_delete_eq in Hkv by done. discriminate. }
    rewrite (Hother k Hk2 Hk1) in Hkv.
    pose proof (Hsym _ _ Hkv) as Hback.
    pose proof (Hsym _ _ Hitem) as Hpartner.
    rewrite Hother; [exact Hback | |]; intros ->; congruence.
Qed.

Lemma handleRemoveConnection_removes_pair_witness :
  MatchingComponent.connections
    (MatchingComponent.next
       (MatchingComponent.handleRemoveConnection false "left-0"
          {| MatchingComponent.leftSide := []; MatchingComponent.rightSide := [];
             MatchingComponent.connections := {[ "left-0" := "right-1"; "right-1" := "left-0" ]};
             MatchingComponent.activeId := None |}))
  !! "right-1" = None.
Proof.
  destruct (handleRemoveConnection_removes_pair "left-0" "right-1"
              {| MatchingComponent.leftSide := []; MatchingComponent.rightSide := [];
                 MatchingComponent.connections :=
                   {[ "left-0" := "right-1"; "right-1" := "left-0" ]};
                 MatchingComponent.activeId := None |})
    as (c & Hc & _ & _ & Hpartner & _).
  - intros k v Hkv. simpl in *.
    destruct (decide (k = "left-0")) as [->|H1].
    + rewrite lookup_insert_eq in Hkv. injection Hkv as <-. reflexivity.
    + rewrite lookup_insert_ne in Hkv by done.
      destruct (decide (k = "right-1")) as [->|H2].
      * rewrite lookup_singleton_eq in Hkv. injection Hkv as <-. reflexivity.
      * rewrite lookup_singleton_ne in Hkv by done. discriminate.
  - reflexivity.
  - discriminate.
  - rewrite Hc. exact Hpartner.
Defined.

(** X18.  Connecting two items that no entry mentions and then removing
    the connection of the dragged item gives back the connections as they
    were before. *)
Theorem connect_then_remove
    (arrayMove : list MatchingComponent.MatchingItem -> Z -> Z ->
                 list MatchingComponent.MatchingItem)
    (activeId overId : string) (st : MatchingComponent.State) :
  MatchingComponent.across activeId overId ->
  MatchingComponent.connections st !! activeId = None ->
  MatchingComponent.connections st !! overId = None ->
  (forall k, MatchingComponent.connections st !! k <> Some activeId) ->
  MatchingComponent.connections
    (MatchingComponent.next
       (MatchingComponent.handleRemoveConnection false activeId
          (MatchingComponent.next
             (MatchingComponent.handleDragEnd arrayMove false
                {| MatchingComponent.active := activeId;
                   MatchingComponent.over := Some overId |} st))))
  = MatchingComponent.connections st.
Proof.
  intros Hacross Ha Ho Hnone.
  destruct (across_distinct _ _ Hacross) as (Hne & Hoe & _).
  rewrite (handleDragEnd_across _ _ _ _ Hacross).
  unfold MatchingComponent.handleRemoveConnection. simpl.
  set (m := MatchingComponent.connections st) in *.
  assert (Hfilter : filter (fun kv : string * string => kv.2 <> activeId) m = m).
  { apply map_filter_id. intros k v Hkv. simpl. intros ->. by apply (Hnone k). }
  rewrite connect_eq, Hfilter.
  rewrite lookup_insert_ne by done. rewrite lookup_insert_eq.
  destruct overId as [|ch r]; [done|]. simpl.
  apply map_eq. intros k.
  destruct (decide (k = String ch r)) as [->|Hk1]; [by rewrite lookup_delete_eq, Ho|].
  rewrite lookup_delete_ne by done.
  destruct (decide (k = activeId)) as [->|Hk2]; [by rewrite lookup_delete_eq, Ha|].
  rewrite lookup_delete_ne by done.
  by rewrite !lookup_insert_ne.
Qed.

Lemma connect_then_remove_witness :
  MatchingComponent.connections
    (MatchingComponent.next
       (MatchingComponent.handleRemoveConnection false "right-0"
          (MatchingComponent.next
             (MatchingComponent.handleDragEnd (fun l _ _ => l) false
                {| MatchingComponent.active := "right-0";
                   MatchingComponent.over := Some "left-2" |}
                {| MatchingComponent.leftSide := []; MatchingComponent.rightSide := [];
                   MatchingComponent.connections := ∅;
                   MatchingComponent.activeId := None |}))))
  = ∅.
Proof.
  apply (connect_then_remove (fun l _ _ => l) "right-0" "left-2"
           {| MatchingComponent.leftSide := []; MatchingComponent.rightSide := [];
              MatchingComponent.connections := ∅;
              MatchingComponent.activeId := None |}).
  - right. split; reflexivity.
  - reflexivity.
  - reflexivity.
  - intros k. simpl. rewrite lookup_empty. discriminate.
Defined.

(** X19.  [handleDragEnd] calls [onMatch] only outside read-only mode and
    only for a drop from one column onto an item of the other, with the
    connections it then stores; in every other case the connections stay
    as they are. *)
Theorem handleDragEnd_onMatch_only_across
    (arrayMove : list MatchingComponent.MatchingItem -> Z -> Z ->
                 list MatchingComponent.MatchingItem)
    (readOnly : bool) (event : MatchingComponent.DragEndEvent)
    (st : MatchingComponent.State) :
  (forall c,
     MatchingComponent.matched (MatchingComponent.handleDragEnd arrayMove readOnly event st)
       = Some c ->
     readOnly = false
     /\ exists overId,
          MatchingComponent.over event = Some overId
          /\ MatchingComponent.across (MatchingComponent.active event) overId
          /\ c = MatchingComponent.connect (MatchingComponent.active event) overId
                   (MatchingComponent.connections st)
          /\ MatchingComponent.connections
               (MatchingComponent.next
                  (MatchingComponent.handleDragEnd arrayMove readOnly event st)) = c)
  /\ (MatchingComponent.matched (MatchingComponent.handleDragEnd arrayMove readOnly event st)
        = None ->
      MatchingComponent.connections
        (MatchingComponent.next (MatchingComponent.handleDragEnd arrayMove readOnly event st))
      = MatchingComponent.connections st).
Proof.
  unfold MatchingComponent.handleDragEnd, MatchingComponent.across.
  destruct readOnly; [split; [discriminate | reflexivity]|].
  destruct (MatchingComponent.over event) as [overId|]; [|split; [discriminate | reflexivity]].
  destruct (String.prefix "left" (MatchingComponent.active event)) eqn:Hla,
           (String.prefix "left" overId) eqn:Hlo,
           (String.prefix "right" (MatchingComponent.active event)) eqn:Hra,
           (String.prefix "right" overId) eqn:Hro; simpl;
    (split; [intros c [= <-] | intros [=]]); try reflexivity;
    (split; [reflexivity|]); exists overId; tauto.
Qed.

(** ** The row of [saveAnswer] *)

(** X20.  In the row that [saveAnswer] hands to [upsert], [updated_at] is
    always the time of the call, whatever the answer object carries; the
    properties [session_id] and [question_id] are those of the answer
    object when it has them, and the arguments of the call only
    otherwise; every other property is the one of the answer object. *)
Theorem saveAnswer_row_precedence {V : Type} (text : string -> V)
    (sessionId questionId now : string) (answer : gmap string V) :
  SaveAnswer.row text sessionId questionId answer now !! "updated_at" = Some (text now)
  /\ SaveAnswer.row text sessionId questionId answer now !! "session_id"
     = Some (default (text sessionId) (answer !! "session_id"))
  /\ SaveAnswer.row text sessionId questionId answer now !! "question_id"
     = Some (default (text questionId) (answer !! "question_id"))
  /\ (forall k, k <> "updated_at" -> k <> "session_id" -> k <> "question_id" ->
        SaveAnswer.row text sessionId questionId answer now !! k = answer !! k).
Proof.
  unfold SaveAnswer.row. split; [apply lookup_insert_eq|].
  split; [|split].
  - rewrite lookup_insert_ne by done. rewrite lookup_union.
    rewrite lookup_insert_ne by done. rewrite lookup_singleton_eq.
    by destruct (answer !! "session_id").
  - rewrite lookup_insert_ne by done. rewrite lookup_union.
    rewrite lookup_insert_eq.
    by destruct (answer !! "question_id").
  - intros k H1 H2 H3. rewrite lookup_insert_ne by done. rewrite lookup_union.
    rewrite lookup_insert_ne by done. rewrite lookup_singleton_ne by done.
    by destruct (answer !! k).
Qed.

(** ** The only exception of the dispatcher *)

